(** * Matrix factorisation by stochastic gradient descent

    A shallow embedding of [exp/apps/sgd/sgdAlamere.cpp]: the rating graph,
    the step-size schedules, the gradient kernel, the cursor advancer and the
    schedulers (by movie, by edge, the blocked grid variants and the marching
    slices), followed by the properties of the specification.

    Conventions of the embedding.
    - [unsigned int] values are integers of [Z]; every addition or product
      that the C++ code performs in 32 bits is wrapped by [u32].
    - [double] values are real numbers of [R]: rounding, infinities and NaN
      are not modelled, and [assert(std::isnormal(dp))] of [vector_dot],
      compiled out under NDEBUG, is not part of the model.
    - The node array of the CSR graph is a list indexed by node id; a
      [Node&] is an index into it.  The adjacency of a node is the list of
      its outgoing edges in storage order.
    - [Galois::do_all] and [Galois::for_each] run their items one after
      the other in the order of the range they are given. *)

From Stdlib Require Import ZArith Reals Lra Lia List Bool.
From stdpp Require Import base list.

(** ** Machine numbers and constants *)

Definition u32 (x : Z) : Z := (x mod 2 ^ 32)%Z.

Definition LATENT_VECTOR_SIZE : nat := 20.
Definition MAX_MOVIE_UPDATES : Z := 5.
Definition MINVAL : R := (- 10 ^ 100)%R.
Definition MAXVAL : R := (10 ^ 100)%R.

Definition LEARNING_RATE : R := (1 / 1000)%R.
Definition DECAY_RATE : R := (9 / 10)%R.
Definition LAMBDA : R := (1 / 1000)%R.
Definition BottouInit : R := (1 / 10)%R.

Inductive Algo :=
| nodeMovie | edgeMovie | block | blockAndSliceUsers | blockAndSliceBoth
| sliceMarch.

Inductive Learn := Intel | Purdue | Bottou | Inv.

(** ** The rating graph *)

Record Node := mkNode {
  latent_vector : list R;
  updates : Z;
  edge_offset : Z
}.

Record Edge := mkEdge {
  getEdgeDst : Z;
  getEdgeData : Z
}.

Record Graph := mkGraph {
  node_data : list Node;
  out_edges : list (list Edge)
}.

#[global] Instance R_inhabited : Inhabited R := populate 0%R.
#[global] Instance Node_inhabited : Inhabited Node := populate (mkNode [] 0 0).
#[global] Instance Edge_inhabited : Inhabited Edge := populate (mkEdge 0 0).

Definition set_latent_vector (v : list R) (n : Node) : Node :=
  mkNode v (updates n) (edge_offset n).
Definition set_updates (k : Z) (n : Node) : Node :=
  mkNode (latent_vector n) k (edge_offset n).
Definition set_edge_offset (k : Z) (n : Node) : Node :=
  mkNode (latent_vector n) (updates n) k.

(** ** The gradient kernel

    The kernel receives two references into the node array.  [D] and
    [lambda] stand for the constants LATENT_VECTOR_SIZE and LAMBDA; the
    program's kernel is their instance [doGradientUpdate] below. *)

Section Kernel.
Local Open Scope R_scope.

Variable D : nat.
Variable lambda : R.

Definition latent (nodes : list Node) (n i : nat) : R :=
  latent_vector (nodes !!! n) !!! i.

Definition store_latent (nodes : list Node) (n i : nat) (x : R) : list Node :=
  <[n := set_latent_vector (<[i := x]> (latent_vector (nodes !!! n)))
                           (nodes !!! n)]> nodes.

Definition vector_dot_with (nodes : list Node) (movie user : nat) : R :=
  fold_left (fun dp i => dp + latent nodes user i * latent nodes movie i)
            (seq 0 D) 0.

(** One iteration of the loop of [doGradientUpdate]. *)
Definition gradient_iteration (step_size cur_error : R) (movie user : nat)
    (nodes : list Node) (i : nat) : list Node :=
  let prev_movie_val := latent nodes movie i in
  let prev_user_val := latent nodes user i in
  let nodes1 :=
    store_latent nodes movie i
      (latent nodes movie i
       + step_size * (cur_error * prev_user_val - lambda * prev_movie_val)) in
  store_latent nodes1 user i
    (latent nodes1 user i
     + step_size * (cur_error * prev_movie_val - lambda * prev_user_val)).

Definition gradient_loop (step_size cur_error : R) (movie user : nat)
    (indices : list nat) (nodes : list Node) : list Node :=
  fold_left (gradient_iteration step_size cur_error movie user) indices nodes.

Definition doGradientUpdate_with (nodes : list Node) (movie user : nat)
    (edge_rating : Z) (step_size : R) : list Node :=
  let cur_error := IZR edge_rating - vector_dot_with nodes movie user in
  gradient_loop step_size cur_error movie user (seq 0 D) nodes.

End Kernel.

Definition vector_dot := vector_dot_with LATENT_VECTOR_SIZE.
Definition doGradientUpdate := doGradientUpdate_with LATENT_VECTOR_SIZE LAMBDA.

Definition calcPrediction (nodes : list Node) (movie user : nat) : R :=
  Rmax MINVAL (Rmin MAXVAL (vector_dot nodes movie user)).

(** ** Step-size schedules

    [pow] is the libm function on the arguments the program gives it: a
    base that is not negative.  [round + 1] is computed in 32 bits before
    the conversion to [double]. *)

Definition pow (x y : R) : R :=
  if Req_dec_T x 0 then (if Req_dec_T y 0 then 1%R else 0%R) else Rpower x y.

Record LearnFN := mkLearnFN { step_size : Z -> R }.

Definition PurdueLearnFN : LearnFN :=
  mkLearnFN (fun round =>
    LEARNING_RATE * (3 / 2) / (1 + DECAY_RATE * pow (IZR (u32 (round + 1))) (3 / 2)))%R.

Definition IntelLearnFN : LearnFN :=
  mkLearnFN (fun round => LEARNING_RATE * pow DECAY_RATE (IZR round))%R.

Definition BottouLearnFN : LearnFN :=
  mkLearnFN (fun round => BottouInit / (1 + BottouInit * LAMBDA * IZR round))%R.

(** For [round = 2^32 - 1] the divisor is [0.0] and the C++ quotient is
    infinite; the real quotient of the model has no meaning there. *)
Definition InvLearnFN : LearnFN :=
  mkLearnFN (fun round => 1 / IZR (u32 (round + 1)))%R.

Definition select_learn (learn : Learn) : LearnFN :=
  match learn with
  | Intel => IntelLearnFN
  | Purdue => PurdueLearnFN
  | Bottou => BottouLearnFN
  | Inv => InvLearnFN
  end.

(** ** Outcomes of loops

    Loops whose number of iterations is not a bound known beforehand take
    fuel.  Indexing the lock array outside its bounds and dividing by zero
    are undefined behaviour of the program; waiting for a lock that no other
    worker will release never returns. *)

Inductive Fault :=
| LockIndexOutOfBounds (slice : Z)
| LockNeverReleased (slice : Z)
| DivisionByZero.

Inductive Outcome (A : Type) : Type :=
| Done (a : A)
| OutOfFuel
| Undefined (f : Fault).
Arguments Done {A} a.
Arguments OutOfFuel {A}.
Arguments Undefined {A} f.

#[global] Instance Outcome_ret : MRet Outcome := fun A a => Done a.
#[global] Instance Outcome_bind : MBind Outcome := fun A B k c =>
  match c with
  | Done a => k a
  | OutOfFuel => OutOfFuel
  | Undefined f => Undefined f
  end.

(** [do_all first last fn]: the items are visited in order.  The operators
    write only the fields [updates] and [timeTaken] of a work item, which
    are printed and never read back; they are left out of the model. *)
Fixpoint do_all {S I : Type} (fn : I -> S -> Outcome S) (items : list I)
    (s : S) : Outcome S :=
  match items with
  | [] => Done s
  | it :: rest => s' ← fn it s; do_all fn rest s'
  end.

(** ** Program state

    [applied] is a ghost log: one entry [(movie, position)] for every call of
    the kernel, the latest first, where [position] is the index of the edge
    in the adjacency of [movie]. *)

Record World := mkWorld {
  graph : Graph;
  applied : list (nat * nat)
}.

Definition getData (w : World) (n : nat) : Node := node_data (graph w) !!! n.
Definition edges (w : World) (n : nat) : list Edge := out_edges (graph w) !!! n.

Definition with_node (f : Node -> Node) (n : nat) (w : World) : World :=
  mkWorld (mkGraph (<[n := f (getData w n)]> (node_data (graph w)))
                   (out_edges (graph w)))
          (applied w).

(** The call [doGradientUpdate(movie_data, user_data, edge_rating, step_size)]
    on the edge [e] found at [position] of the adjacency of [movie]. *)
Definition gradient_call (ss : R) (movie position : nat) (e : Edge)
    (w : World) : World :=
  mkWorld (mkGraph (doGradientUpdate (node_data (graph w)) movie
                      (Z.to_nat (getEdgeDst e)) (getEdgeData e) ss)
                   (out_edges (graph w)))
          ((movie, position) :: applied w).

Definition incr_updates (movie : nat) : World -> World :=
  with_node (fun n => set_updates (u32 (updates n + 1)) n) movie.
Definition incr_edge_offset (movie : nat) : World -> World :=
  with_node (fun n => set_edge_offset (u32 (edge_offset n + 1)) n) movie.
Definition reset_edge_offset (movie : nat) : World -> World :=
  with_node (set_edge_offset 0) movie.

Record ThreadWorkItem := mkThreadWorkItem {
  movieRangeStart : Z;
  movieRangeEnd : Z;
  userRangeStart : Z;
  userRangeEnd : Z;
  usersPerBlockSlice : Z;
  moviesPerBlockSlice : Z;
  sliceStart : Z;
  numSlices : Z;
  id : Z
}.

(** The movies [first, last) of the node array, in order. *)
Definition movie_range (first last : Z) : list nat :=
  seq (Z.to_nat first) (Z.to_nat last - Z.to_nat first).

(** ** The edge loops

    The loop
    [for (; edge_it != edge_end; ++edge_it, ++movie_data.edge_offset)]
    of the blocked operators, started at [edge_begin + edge_offset]: [es]
    is what is left of the adjacency and [position] the index of its head.
    The program keeps [edge_offset] within the adjacency; the model reads
    an offset beyond it as the end of the adjacency. *)

Section Loops.
Local Open Scope Z_scope.

Fixpoint edge_loop (ss : R) (bound : Z) (movie position : nat)
    (es : list Edge) (w : World) : World :=
  match es with
  | [] => w
  | e :: es' =>
      if bound <? getEdgeDst e then w
      else
        edge_loop ss bound movie (S position) es'
          (incr_edge_offset movie
             (incr_updates movie (gradient_call ss movie position e w)))
  end.

Definition remaining_edges (w : World) (movie : nat) : list Edge :=
  drop (Z.to_nat (edge_offset (getData w movie))) (edges w movie).

(** The body of the loop over the movies of a block: the edges up to
    [bound], then the reset of the cursor when [at_last_user] holds. *)
Definition visit_movie (ss : R) (bound : Z) (at_last_user : bool)
    (w : World) (movie : nat) : World :=
  let w1 := edge_loop ss bound movie
              (Z.to_nat (edge_offset (getData w movie)))
              (remaining_edges w movie) w in
  if at_last_user then reset_edge_offset movie w1 else w1.

Variables NUM_MOVIE_NODES NUM_USER_NODES : Z.

Definition sgd_block (ss : R) (workItem : ThreadWorkItem) (w : World)
    : Outcome World :=
  let userRangeEnd := userRangeEnd workItem in
  Done (fold_left
          (visit_movie ss userRangeEnd (userRangeEnd =? NUM_USER_NODES))
          (movie_range (movieRangeStart workItem) (movieRangeEnd workItem))
          w).

Definition next_slice_end (current step last : Z) : Z :=
  let current' := u32 (current + step) in
  if last <? current' then last else current'.

Fixpoint sgd_block_users_loop (fuel : nat) (ss : R)
    (workItem : ThreadWorkItem) (currentBlockSliceEnd : Z) (w : World)
    : Outcome World :=
  if currentBlockSliceEnd <? userRangeEnd workItem then
    match fuel with
    | O => OutOfFuel
    | S fuel' =>
        let currentBlockSliceEnd :=
          next_slice_end currentBlockSliceEnd (usersPerBlockSlice workItem)
                         (userRangeEnd workItem) in
        let currentBlockSliceEndUserId :=
          u32 (currentBlockSliceEnd + NUM_MOVIE_NODES) in
        sgd_block_users_loop fuel' ss workItem currentBlockSliceEnd
          (fold_left
             (visit_movie ss currentBlockSliceEndUserId
                (currentBlockSliceEnd =? NUM_USER_NODES))
             (movie_range (movieRangeStart workItem) (movieRangeEnd workItem))
             w)
    end
  else Done w.

Definition sgd_block_users (fuel : nat) (ss : R)
    (workItem : ThreadWorkItem) (w : World) : Outcome World :=
  sgd_block_users_loop fuel ss workItem (userRangeStart workItem) w.

(** The loop over the movie slices of one user slice. *)
Fixpoint movie_slices_loop (fuel : nat) (ss : R) (workItem : ThreadWorkItem)
    (currentBlockSliceEnd currentMovieSliceEnd : Z) (w : World)
    : Outcome World :=
  if currentMovieSliceEnd <? movieRangeEnd workItem then
    match fuel with
    | O => OutOfFuel
    | S fuel' =>
        let first := currentMovieSliceEnd in
        let currentMovieSliceEnd :=
          next_slice_end currentMovieSliceEnd (moviesPerBlockSlice workItem)
                         (movieRangeEnd workItem) in
        let currentBlockSliceEndUserId :=
          u32 (currentBlockSliceEnd + NUM_MOVIE_NODES) in
        movie_slices_loop fuel' ss workItem currentBlockSliceEnd
          currentMovieSliceEnd
          (fold_left
             (visit_movie ss currentBlockSliceEndUserId
                (currentBlockSliceEnd =? NUM_USER_NODES))
             (movie_range first currentMovieSliceEnd)
             w)
    end
  else Done w.

Fixpoint sgd_block_users_movies_loop (fuel : nat) (ss : R)
    (workItem : ThreadWorkItem) (currentBlockSliceEnd : Z) (w : World)
    : Outcome World :=
  if currentBlockSliceEnd <? userRangeEnd workItem then
    match fuel with
    | O => OutOfFuel
    | S fuel' =>
        let currentBlockSliceEnd :=
          next_slice_end currentBlockSliceEnd (usersPerBlockSlice workItem)
                         (userRangeEnd workItem) in
        w' ← movie_slices_loop fuel' ss workItem currentBlockSliceEnd
               (movieRangeStart workItem) w;
        sgd_block_users_movies_loop fuel' ss workItem currentBlockSliceEnd w'
    end
  else Done w.

Definition sgd_block_users_movies (fuel : nat) (ss : R)
    (workItem : ThreadWorkItem) (w : World) : Outcome World :=
  sgd_block_users_movies_loop fuel ss workItem (userRangeStart workItem) w.

(** *** The cursor advancer *)

Definition userIdToUserNode (userId : Z) : Z :=
  u32 (u32 (userId + NUM_MOVIE_NODES) + 1).

Fixpoint advance_loop (bound : Z) (movie : nat) (es : list Edge) (w : World)
    : World :=
  match es with
  | [] => w
  | e :: es' =>
      if bound <? getEdgeDst e then w
      else advance_loop bound movie es' (incr_edge_offset movie w)
  end.

Definition advance_movie (bound : Z) (w : World) (movie : nat) : World :=
  advance_loop bound movie (remaining_edges w movie) w.

Definition advance_edge_iterators (workItem : ThreadWorkItem) (w : World)
    : Outcome World :=
  Done (fold_left
          (advance_movie (userIdToUserNode (userRangeStart workItem)))
          (movie_range (movieRangeStart workItem) (movieRangeEnd workItem))
          w).

(** *** The blocked grid: [runBlockSlices] *)

Definition indices (n : Z) : list Z := Z.of_nat <$> seq 0 (Z.to_nat n).

Definition block_work_item (numWorkItems usersPerBlk moviesPerBlk i : Z)
    : ThreadWorkItem :=
  let moviesPerThread := NUM_MOVIE_NODES / numWorkItems in
  let usersPerThread := NUM_USER_NODES / numWorkItems in
  let movieStart := u32 (moviesPerThread * i) in
  let last := i =? u32 (numWorkItems - 1) in
  {| movieRangeStart := movieStart;
     movieRangeEnd :=
       if last then NUM_MOVIE_NODES else u32 (movieStart + moviesPerThread);
     userRangeStart := u32 (usersPerThread * i);
     userRangeEnd :=
       if last then NUM_USER_NODES else u32 (u32 (i + 1) * usersPerThread);
     usersPerBlockSlice := usersPerBlk;
     moviesPerBlockSlice := moviesPerBlk;
     sliceStart := 0;
     numSlices := 0;
     id := i |}.

Definition block_work_items (numWorkItems usersPerBlk moviesPerBlk : Z)
    : list ThreadWorkItem :=
  block_work_item numWorkItems usersPerBlk moviesPerBlk
    <$> indices numWorkItems.

(** The loop over [k] that moves every work item one block to the right
    after sub-step [j]. *)
Definition move_right (numWorkItems j : Z)
    (userRangeStartPoints userRangeEndPoints : list Z)
    (workItems : list ThreadWorkItem) : list ThreadWorkItem :=
  imap (fun k wi =>
          let nextColumn :=
            u32 (u32 (j + 1) + Z.of_nat k) mod numWorkItems in
          {| movieRangeStart := movieRangeStart wi;
             movieRangeEnd := movieRangeEnd wi;
             userRangeStart := userRangeStartPoints !!! Z.to_nat nextColumn;
             userRangeEnd := userRangeEndPoints !!! Z.to_nat nextColumn;
             usersPerBlockSlice := usersPerBlockSlice wi;
             moviesPerBlockSlice := moviesPerBlockSlice wi;
             sliceStart := sliceStart wi;
             numSlices := numSlices wi;
             id := id wi |})
       workItems.

Definition BlockFn := R -> ThreadWorkItem -> World -> Outcome World.

(** One pass of the loop over [j]: all work items, then the move. *)
Definition block_substep (fn : BlockFn) (lf : LearnFN) (numWorkItems : Z)
    (starts ends : list Z) (update j : Z)
    (s : World * list ThreadWorkItem) : Outcome (World * list ThreadWorkItem) :=
  w' ← do_all (fn (step_size lf update)) s.2 s.1;
  mret (w', move_right numWorkItems j starts ends s.2).

(** One pass of the loop over [update]. *)
Definition block_round (fn : BlockFn) (lf : LearnFN) (numWorkItems : Z)
    (starts ends : list Z) (update : Z)
    (s : World * list ThreadWorkItem) : Outcome (World * list ThreadWorkItem) :=
  do_all (block_substep fn lf numWorkItems starts ends update)
         (indices numWorkItems) s.

(** The state with which the loop over [update] is entered. *)
Definition block_start (threadCount usersPerBlk moviesPerBlk : Z) (w : World)
    : Outcome (World * list ThreadWorkItem) :=
  if threadCount =? 0 then Undefined DivisionByZero
  else
    let workItems := block_work_items threadCount usersPerBlk moviesPerBlk in
    w' ← do_all advance_edge_iterators workItems w;
    mret (w', workItems).

Definition runBlockSlices (fn : BlockFn) (lf : LearnFN)
    (threadCount usersPerBlk moviesPerBlk : Z) (w : World) : Outcome World :=
  s ← block_start threadCount usersPerBlk moviesPerBlk w;
  let starts := userRangeStart <$> s.2 in
  let ends := userRangeEnd <$> s.2 in
  s' ← do_all (block_round fn lf threadCount starts ends)
         (indices MAX_MOVIE_UPDATES) s;
  mret s'.1.

(** *** Marching slices *)

Definition acquire (locks : list bool) (slice : Z) : Outcome (list bool) :=
  match locks !! Z.to_nat slice with
  | None => Undefined (LockIndexOutOfBounds slice)
  | Some true => Undefined (LockNeverReleased slice)
  | Some false => Done (<[Z.to_nat slice := true]> locks)
  end.

Definition unlock (locks : list bool) (slice : Z) : Outcome (list bool) :=
  match locks !! Z.to_nat slice with
  | None => Undefined (LockIndexOutOfBounds slice)
  | Some _ => Done (<[Z.to_nat slice := false]> locks)
  end.

Record MarchState := mkMarchState {
  world : World;
  locks : list bool;
  currentBlockSliceEnd : Z;
  currentSliceId : Z;
  sliceUpdates : Z
}.

(** The body of the [while] loop of [sgd_march]. *)
Definition sgd_march_iteration (ss : R) (workItem : ThreadWorkItem)
    (s : MarchState) : Outcome MarchState :=
  held ← acquire (locks s) (currentSliceId s);
  let sliceEnd :=
    next_slice_end (currentBlockSliceEnd s) (usersPerBlockSlice workItem)
                   (userRangeEnd workItem) in
  let w' :=
    fold_left
      (visit_movie ss (u32 (sliceEnd + NUM_MOVIE_NODES))
         (sliceEnd =? NUM_USER_NODES))
      (movie_range (movieRangeStart workItem) (movieRangeEnd workItem))
      (world s) in
  released ← unlock held (currentSliceId s);
  let nextSliceId := u32 (currentSliceId s + 1) in
  let done := u32 (sliceUpdates s + 1) in
  mret (if sliceEnd =? userRangeEnd workItem
        then mkMarchState w' released 0 0 done
        else mkMarchState w' released sliceEnd nextSliceId done).

Fixpoint sgd_march_loop (fuel : nat) (ss : R) (workItem : ThreadWorkItem)
    (s : MarchState) : Outcome MarchState :=
  if sliceUpdates s <? u32 (MAX_MOVIE_UPDATES * numSlices workItem) then
    match fuel with
    | O => OutOfFuel
    | S fuel' =>
        s' ← sgd_march_iteration ss workItem s;
        sgd_march_loop fuel' ss workItem s'
    end
  else Done s.

Definition sgd_march (fuel : nat) (ss : R) (workItem : ThreadWorkItem)
    (s : World * list bool) : Outcome (World * list bool) :=
  r ← sgd_march_loop fuel ss workItem
        (mkMarchState s.1 s.2 (userRangeStart workItem)
                      (sliceStart workItem) 0);
  mret (world r, locks r).

Definition march_work_item (numWorkItems usersPerBlk numSlices i : Z)
    : ThreadWorkItem :=
  let moviesPerThread := NUM_MOVIE_NODES / numWorkItems in
  let usersPerThread := NUM_USER_NODES / numWorkItems in
  let slicesPerThread := numSlices / numWorkItems in
  let movieStart := u32 (moviesPerThread * i) in
  {| movieRangeStart := movieStart;
     movieRangeEnd :=
       if i =? u32 (numWorkItems - 1) then NUM_MOVIE_NODES
       else u32 (movieStart + moviesPerThread);
     userRangeStart := u32 (usersPerThread * i);
     userRangeEnd := NUM_USER_NODES;
     usersPerBlockSlice := usersPerBlk;
     moviesPerBlockSlice := 0;
     sliceStart := u32 (slicesPerThread * i);
     numSlices := numSlices;
     id := i |}.

Definition runSliceMarch (fuel : nat) (lf : LearnFN)
    (threadCount usersPerBlk : Z) (w : World) : Outcome World :=
  if (threadCount =? 0) || (usersPerBlk =? 0) then Undefined DivisionByZero
  else
    let numSlices := NUM_USER_NODES / usersPerBlk in
    let workItems :=
      march_work_item threadCount usersPerBlk numSlices
        <$> indices threadCount in
    let ss := step_size lf 1 in
    w1 ← do_all advance_edge_iterators workItems w;
    r ← do_all (sgd_march fuel ss) workItems
          (w1, replicate (Z.to_nat numSlices) false);
    mret r.1.

End Loops.

(** ** The schedulers by movie and by edge *)

Section Naive.
Local Open Scope Z_scope.

(** The nodes with at least one outgoing edge, in the order of the graph. *)
Definition Movies (w : World) : list nat :=
  filter (fun n => edges w n ≠ []) (seq 0 (length (node_data (graph w)))).

Fixpoint node_movie_loop (ss : R) (node position : nat) (es : list Edge)
    (w : World) : World :=
  match es with
  | [] => w
  | e :: es' =>
      node_movie_loop ss node (S position) es'
        (gradient_call ss node position e w)
  end.

Definition sgd_node_movie (ss : R) (node : nat) (w : World) : Outcome World :=
  Done (node_movie_loop ss node 0 (edges w node) w).

Definition sgd_node_movie_go (lf : LearnFN) (w : World) : Outcome World :=
  let movies := Movies w in
  do_all (fun i w => do_all (sgd_node_movie (step_size lf i)) movies w)
         (indices 10) w.

(** The operator of [sgd_edge_movie]; the boolean tells whether the node
    is pushed on the work list again. *)
Definition sgd_edge_movie (ss : R) (node : nat) (w : World) : World * bool :=
  match edges w node with
  | [] => (w, false)
  | _ =>
      let nd := getData w node in
      let position := Z.to_nat (edge_offset nd) in
      let w1 := gradient_call ss node position (edges w node !!! position) w in
      let w2 := incr_edge_offset node w1 in
      if (S position =? length (edges w node))%nat
      then (reset_edge_offset node w2, false)
      else (w2, true)
  end.

(** [Galois::for_each] with a work list: the item on top is taken, and
    what the operator pushes goes on top. *)
Fixpoint for_each_edge_movie (fuel : nat) (ss : R) (worklist : list nat)
    (w : World) : Outcome World :=
  match worklist with
  | [] => Done w
  | node :: rest =>
      match fuel with
      | O => OutOfFuel
      | S fuel' =>
          let r := sgd_edge_movie ss node w in
          for_each_edge_movie fuel' ss
            (if r.2 then node :: rest else rest) r.1
      end
  end.

(** [random_shuffle] stands for [std::random_shuffle], whose permutation
    depends on the state of [std::rand]; its first argument is the round. *)
Variable random_shuffle : Z -> list nat -> list nat.

Definition sgd_edge_movie_go (fuel : nat) (lf : LearnFN) (w : World)
    : Outcome World :=
  r ← do_all
        (fun i (s : World * list nat) =>
           let movies := if i =? 0 then s.2 else random_shuffle i s.2 in
           w' ← for_each_edge_movie fuel (step_size lf i) movies s.1;
           mret (w', movies))
        (indices 10) (w, Movies w);
  mret r.1.

End Naive.

(** ** Initialisation and [main] *)

Section Driver.
Local Open Scope Z_scope.

(** [RAND_MAX] is the constant of the C library and [rand k] the value
    that call number [k] of [std::rand] returns after [std::srand(SEED)]. *)
Variable RAND_MAX : Z.
Variable rand : nat -> Z.

Definition SEED : Z := 4562727.

(** [genRand] on the value [r] that its call of [std::rand] returns. *)
Definition genRand (r : Z) : R := (2 * (IZR r / IZR RAND_MAX) - 1)%R.

Record Counts := mkCounts {
  numMovieNodes : Z;
  numUserNodes : Z;
  numRatings : Z
}.

(** The body of the loop of [initializeGraphData] on node [gnode]. *)
Definition initialize_node (s : Graph * Counts) (gnode : nat)
    : Graph * Counts :=
  let g := s.1 in
  let c := s.2 in
  let v := (fun i => genRand (rand (LATENT_VECTOR_SIZE * gnode + i)%nat))
             <$> seq 0 LATENT_VECTOR_SIZE in
  let num_edges := u32 (Z.of_nat (length (out_edges g !!! gnode))) in
  (mkGraph (<[gnode := mkNode v 0 0]> (node_data g)) (out_edges g),
   mkCounts
     (if 0 <? num_edges then u32 (numMovieNodes c + 1) else numMovieNodes c)
     (if 0 <? num_edges then numUserNodes c else u32 (numUserNodes c + 1))
     (u32 (numRatings c + num_edges))).

Definition initializeGraphData (g : Graph) : Graph * Counts :=
  fold_left initialize_node (seq 0 (length (node_data g)))
            (g, mkCounts 0 0 0).

Variable random_shuffle : Z -> list nat -> list nat.

(** [main] after the graph is read: initialisation, then the scheduler
    that [algo] names with the schedule that [learn] names. *)
Definition main (fuel : nat) (algo : Algo) (learn : Learn)
    (threadCount usersPerBlk moviesPerBlk : Z) (g : Graph) : Outcome World :=
  let init := initializeGraphData g in
  let M := numMovieNodes init.2 in
  let U := numUserNodes init.2 in
  let lf := select_learn learn in
  let w := mkWorld init.1 [] in
  match algo with
  | nodeMovie => sgd_node_movie_go lf w
  | edgeMovie => sgd_edge_movie_go random_shuffle fuel lf w
  | block =>
      runBlockSlices M U (sgd_block U) lf threadCount usersPerBlk
                     moviesPerBlk w
  | blockAndSliceUsers =>
      runBlockSlices M U (sgd_block_users M U fuel) lf threadCount
                     usersPerBlk moviesPerBlk w
  | blockAndSliceBoth =>
      runBlockSlices M U (sgd_block_users_movies M U fuel) lf threadCount
                     usersPerBlk moviesPerBlk w
  | sliceMarch => runSliceMarch M U fuel lf threadCount usersPerBlk w
  end.

End Driver.

(** ** The error report

    [verify] sums, over the edges of every node, the square of the
    difference between the prediction and the rating, and prints the sum
    and the root of its mean over [NUM_RATINGS], the count that
    [initializeGraphData] stores.  The pair stands for the two numbers
    printed.  With [NUM_RATINGS = 0] the program divides 0.0 by zero and
    prints a NaN, which the reals do not have: the second component is
    meant for a positive count only. *)
Definition squared_error (g : Graph) (n : nat) (e : Edge) : R :=
  let pred := calcPrediction (node_data g) n (Z.to_nat (getEdgeDst e)) in
  let rating := IZR (getEdgeData e) in
  ((pred - rating) * (pred - rating))%R.

Definition total_rms (g : Graph) : R :=
  fold_left
    (fun rms n =>
       fold_left (fun rms e => (rms + squared_error g n e)%R)
                 (out_edges g !!! n) rms)
    (seq 0 (length (node_data g))) 0%R.

Definition verify (NUM_RATINGS : Z) (g : Graph) : R * R :=
  (total_rms g, sqrt (total_rms g / IZR NUM_RATINGS)).

(** ** Notions used by the statements *)

(** The values one iteration of the kernel leaves in the two vectors. *)
Definition movie_step (lambda ss err m u : R) : R :=
  (m + ss * (err * u - lambda * m))%R.
Definition user_step (lambda ss err m u : R) : R :=
  (u + ss * (err * m - lambda * u))%R.

(** The two references are nodes of the array and [i] is a component of
    both vectors. *)
Definition in_bounds (movie user : nat) (nodes : list Node) (i : nat) : Prop :=
  (movie < length nodes)%nat /\ (user < length nodes)%nat /\
  (i < length (latent_vector (nodes !!! movie)))%nat /\
  (i < length (latent_vector (nodes !!! user)))%nat.


(** Three nodes with vectors of LATENT_VECTOR_SIZE components. *)
Definition unit_nodes : list Node :=
  [mkNode (1 :: replicate 19 0) 0 7; mkNode (2 :: replicate 19 0) 0 0;
   mkNode (replicate 20 0) 3 1]%R.

(** The cursor of a movie, the length of its adjacency, and the state in
    which every cursor lies within its adjacency. *)
Definition cursor (w : World) (m : nat) : Z := edge_offset (getData w m).
Definition degree (w : World) (m : nat) : Z := Z.of_nat (length (edges w m)).
Definition cursors_ok (w : World) : Prop :=
  forall m, (0 <= cursor w m <= degree w m)%Z.
Definition degrees_fit (w : World) : Prop :=
  forall m, (degree w m < 2 ^ 32)%Z.

(** The number of leading edges of [es] whose destination is at most
    [bound]: the edges an edge loop consumes. *)
Fixpoint within (bound : Z) (es : list Edge) : nat :=
  match es with
  | [] => 0
  | e :: es' => if (bound <? getEdgeDst e)%Z then 0 else S (within bound es')
  end.

(** The log entries of [n] consecutive edges of [m] from [position] on, the
    latest first. *)
Fixpoint visited (m position n : nat) : list (nat * nat) :=
  match n with
  | O => []
  | S n' => visited m (S position) n' ++ [(m, position)]
  end.

Definition in_graph (w : World) (m : nat) : Prop :=
  (m < length (node_data (graph w)))%nat.

#[global] Instance in_graph_dec w m : Decision (in_graph w m).
Proof. unfold in_graph. apply _. Defined.

(** The topology is that of [w]. *)
Definition same_edges (w w' : World) : Prop :=
  (forall k, edges w' k = edges w k) /\
  length (node_data (graph w')) = length (node_data (graph w)).



(** The state of [runBlockSlices] after the cursor advancer and the first
    [n] sub-steps of the first round. *)
Definition first_substeps (M U : Z) (fn : BlockFn) (lf : LearnFN)
    (threadCount usersPerBlk moviesPerBlk n : Z) (w : World)
    : Outcome (World * list ThreadWorkItem) :=
  s ← block_start M U threadCount usersPerBlk moviesPerBlk w;
  do_all (block_substep fn lf threadCount
            (userRangeStart <$> s.2) (userRangeEnd <$> s.2) 0)
         (indices n) s.

(** What [f] sees in the state a run ends with. *)
Definition observe {A B : Type} (f : A -> B) (o : Outcome A) : option B :=
  match o with
  | Done a => Some (f a)
  | _ => None
  end.

(** How often the kernel was called on the edge at [position] of [movie]. *)
Definition times_applied (w : World) (movie position : nat) : nat :=
  length (filter (fun p => p = (movie, position)) (applied w)).

(** How often the kernel was called with [movie] as the movie. *)
Definition times_movie (w : World) (movie : nat) : nat :=
  length (filter (fun p => p.1 = movie) (applied w)).

(** *** Small graphs *)

Definition blank : Node := mkNode (replicate 20 0%R) 0 0.
Definition rated (user : Z) : Edge := mkEdge user 3.

(** Movies 0 and 1, users 2 to 5, every movie rated by every user. *)
Definition two_by_four : Graph :=
  mkGraph (replicate 6 blank)
          [[rated 2; rated 3; rated 4; rated 5];
           [rated 2; rated 3; rated 4; rated 5]; []; []; []; []].

(** Movie 0, users 1 to 3, the movie rated by every user. *)
Definition one_by_three : Graph :=
  mkGraph (replicate 4 blank) [[rated 1; rated 2; rated 3]; []; []; []].

(** Movie 0 and user 1, one rating. *)
Definition one_by_one : Graph :=
  mkGraph (replicate 2 blank) [[rated 1]; []].

(** Among the nodes [ns] of [g]: how many have outgoing edges, and how many
    edges they have together. *)
Definition movies_among (g : Graph) (ns : list nat) : nat :=
  length (filter (fun n => out_edges g !!! n ≠ []) ns).
Definition ratings_among (g : Graph) (ns : list nat) : nat :=
  sum_list_with (fun n => length (out_edges g !!! n)) ns.

(** The counter of every node is, modulo [2^32], the number of calls of the
    kernel with the node as the movie. *)
Definition tally (w : World) : Prop :=
  forall k, in_graph w k ->
    u32 (updates (getData w k)) = u32 (Z.of_nat (times_movie w k)).

(** [w'] has the topology of [w], cursors within the adjacencies and
    counters that tell the calls. *)
Definition kept (w w' : World) : Prop :=
  same_edges w w' /\ cursors_ok w' /\ degrees_fit w' /\ tally w'.

(** [P] holds of the state the run ends with, if it ends. *)
Definition when_done {A : Type} (o : Outcome A) (P : A -> Prop) : Prop :=
  match o with
  | Done a => P a
  | _ => True
  end.

(** An operator that keeps the invariant whenever it ends. *)
Definition keeps (fn : BlockFn) : Prop :=
  forall ss wi w w', kept w w -> fn ss wi w = Done w' -> kept w w'.


(** The state of a marching worker between two iterations, when the slices
    tile the users: no lock is held, and the slice id is not ahead of the
    user position, which is short of the end. *)
Definition marching (U : Z) (wi : ThreadWorkItem) (s : MarchState) : Prop :=
  locks s = replicate (Z.to_nat (numSlices wi)) false /\
  (0 <= currentSliceId s)%Z /\
  (currentSliceId s * usersPerBlockSlice wi <= currentBlockSliceEnd s < U)%Z.

(** The slices tile the users and the sums of the loop fit in 32 bits. *)
Definition tiled (U : Z) (wi : ThreadWorkItem) : Prop :=
  (0 < usersPerBlockSlice wi)%Z /\ userRangeEnd wi = U /\
  U = (numSlices wi * usersPerBlockSlice wi)%Z /\
  (U + usersPerBlockSlice wi < 2 ^ 32)%Z /\
  (MAX_MOVIE_UPDATES * numSlices wi < 2 ^ 32)%Z.


(** Two work items share no movie and no user: their movie ranges and
    their user ranges, as half-open intervals, do not meet. *)
Definition apart (a b : ThreadWorkItem) : Prop :=
  (movieRangeEnd a <= movieRangeStart b \/
   movieRangeEnd b <= movieRangeStart a)%Z /\
  (userRangeEnd a <= userRangeStart b \/
   userRangeEnd b <= userRangeStart a)%Z.
(** * Properties

    ** The gradient kernel *)

Section KernelFacts.
Local Open Scope R_scope.
Variable D : nat.
Variable lambda : R.

Lemma store_latent_length nodes n i x :
  length (store_latent nodes n i x) = length nodes.
Proof. unfold store_latent. by rewrite length_insert. Qed.

Lemma store_latent_lookup_ne nodes n i x k :
  n ≠ k -> store_latent nodes n i x !! k = nodes !! k.
Proof. intros. unfold store_latent. by rewrite list_lookup_insert_ne. Qed.

Lemma store_latent_total_ne nodes n i x k :
  n ≠ k -> store_latent nodes n i x !!! k = nodes !!! k.
Proof.
  intros. rewrite !list_lookup_total_alt. by rewrite store_latent_lookup_ne.
Qed.

Lemma store_latent_total_eq nodes n i x :
  (n < length nodes)%nat ->
  store_latent nodes n i x !!! n =
  set_latent_vector (<[i := x]> (latent_vector (nodes !!! n))) (nodes !!! n).
Proof.
  intros. unfold store_latent. by rewrite list_lookup_total_insert_eq.
Qed.

(** Whatever the indices, a store changes no counter and no cursor. *)
Lemma store_latent_counters nodes n i x k :
  updates (store_latent nodes n i x !!! k) = updates (nodes !!! k) /\
  edge_offset (store_latent nodes n i x !!! k) = edge_offset (nodes !!! k).
Proof.
  destruct (decide (n = k)) as [->|Hne].
  - destruct (decide (k < length nodes)%nat).
    + by rewrite store_latent_total_eq.
    + unfold store_latent. rewrite list_insert_id'; [done | lia].
  - by rewrite store_latent_total_ne.
Qed.

Lemma store_latent_vector_length nodes n i x k :
  length (latent_vector (store_latent nodes n i x !!! k)) =
  length (latent_vector (nodes !!! k)).
Proof.
  destruct (decide (n = k)) as [->|Hne].
  - destruct (decide (k < length nodes)%nat).
    + rewrite store_latent_total_eq by done. simpl. by rewrite length_insert.
    + unfold store_latent. rewrite list_insert_id'; [done | lia].
  - by rewrite store_latent_total_ne.
Qed.

Lemma latent_store_latent nodes n i x k j :
  (n < length nodes)%nat ->
  (i < length (latent_vector (nodes !!! n)))%nat ->
  latent (store_latent nodes n i x) k j =
  if decide (n = k /\ i = j) then x else latent nodes k j.
Proof.
  intros Hn Hi. unfold latent.
  destruct (decide (n = k)) as [->|Hne].
  - rewrite store_latent_total_eq by done. simpl.
    destruct (decide (i = j)) as [->|Hij].
    + rewrite list_lookup_total_insert_eq by done.
      by rewrite decide_True.
    + rewrite list_lookup_total_insert_ne by done.
      rewrite decide_False; [done | intros [? ?]; congruence].
  - rewrite store_latent_total_ne by done.
    rewrite decide_False; [done | intros [? ?]; congruence].
Qed.

Lemma gradient_iteration_length ss err movie user nodes i :
  length (gradient_iteration lambda ss err movie user nodes i) = length nodes.
Proof. unfold gradient_iteration. by rewrite !store_latent_length. Qed.

Lemma gradient_iteration_counters ss err movie user nodes i k :
  updates (gradient_iteration lambda ss err movie user nodes i !!! k)
    = updates (nodes !!! k) /\
  edge_offset (gradient_iteration lambda ss err movie user nodes i !!! k)
    = edge_offset (nodes !!! k).
Proof.
  unfold gradient_iteration.
  split.
  - by rewrite !(proj1 (store_latent_counters _ _ _ _ _)).
  - by rewrite !(proj2 (store_latent_counters _ _ _ _ _)).
Qed.

Lemma gradient_iteration_vector_length ss err movie user nodes i k :
  length (latent_vector (gradient_iteration lambda ss err movie user nodes i !!! k))
  = length (latent_vector (nodes !!! k)).
Proof. unfold gradient_iteration. by rewrite !store_latent_vector_length. Qed.

Lemma gradient_iteration_other ss err movie user nodes i k :
  k ≠ movie -> k ≠ user ->
  gradient_iteration lambda ss err movie user nodes i !! k = nodes !! k.
Proof.
  intros. unfold gradient_iteration.
  by rewrite !store_latent_lookup_ne.
Qed.


Section Distinct.
Variables (movie user : nat).
Hypothesis distinct : movie ≠ user.


Lemma gradient_iteration_latent ss err nodes i j :
  in_bounds movie user nodes i ->
  let nodes' := gradient_iteration lambda ss err movie user nodes i in
  latent nodes' movie j =
    (if decide (i = j)
     then movie_step lambda ss err (latent nodes movie i) (latent nodes user i)
     else latent nodes movie j) /\
  latent nodes' user j =
    (if decide (i = j)
     then user_step lambda ss err (latent nodes movie i) (latent nodes user i)
     else latent nodes user j).
Proof.
  intros (Hm & Hu & Him & Hiu). cbv zeta. unfold gradient_iteration.
  assert (Hu1 : forall x, (user < length (store_latent nodes movie i x))%nat)
    by (intros; by rewrite store_latent_length).
  assert (Hiu1 : forall x,
    (i < length (latent_vector (store_latent nodes movie i x !!! user)))%nat)
    by (intros; by rewrite store_latent_vector_length).
  split.
  - rewrite latent_store_latent by done.
    rewrite decide_False by (intros [? ?]; congruence).
    rewrite latent_store_latent by done.
    destruct (decide (i = j)) as [->|Hij].
    + rewrite decide_True by done. done.
    + rewrite decide_False by (intros [? ?]; congruence). done.
  - rewrite latent_store_latent by done.
    destruct (decide (i = j)) as [->|Hij].
    + rewrite decide_True by done.
      rewrite latent_store_latent by done.
      rewrite decide_False by (intros [? ?]; congruence). done.
    + rewrite decide_False by (intros [? ?]; congruence).
      rewrite latent_store_latent by done.
      rewrite decide_False by (intros [? ?]; congruence). done.
Qed.

Lemma gradient_loop_latent ss err indices : forall nodes j,
  NoDup indices ->
  (forall i, i ∈ indices -> in_bounds movie user nodes i) ->
  let nodes' := gradient_loop lambda ss err movie user indices nodes in
  latent nodes' movie j =
    (if decide (j ∈ indices)
     then movie_step lambda ss err (latent nodes movie j) (latent nodes user j)
     else latent nodes movie j) /\
  latent nodes' user j =
    (if decide (j ∈ indices)
     then user_step lambda ss err (latent nodes movie j) (latent nodes user j)
     else latent nodes user j).
Proof.
  induction indices as [|i rest IH]; intros nodes j Hnd Hin; cbv zeta.
  - unfold gradient_loop; cbn [fold_left].
    rewrite !decide_False by apply not_elem_of_nil. done.
  - unfold gradient_loop; cbn [fold_left].
    apply NoDup_cons in Hnd as [Hi Hrest].
    set (nodes1 := gradient_iteration lambda ss err movie user nodes i).
    assert (Hin1 : forall k, k ∈ rest -> in_bounds movie user nodes1 k).
    { intros k Hk. destruct (Hin k) as (? & ? & ? & ?); [apply elem_of_cons; by right|].
      unfold in_bounds, nodes1.
      by rewrite gradient_iteration_length,
                 !gradient_iteration_vector_length. }
    destruct (IH nodes1 j Hrest Hin1) as [IHm IHu]. cbv zeta in IHm, IHu.
    fold (gradient_loop lambda ss err movie user rest nodes1).
    rewrite IHm, IHu.
    assert (Hb : in_bounds movie user nodes i) by (apply Hin; (apply elem_of_cons; by left)).
    destruct (gradient_iteration_latent ss err nodes i j Hb) as [Em Eu].
    cbv zeta in Em, Eu. fold nodes1 in Em, Eu.
    rewrite Em, Eu.
    destruct (decide (j ∈ rest)) as [Hj|Hj];
      destruct (decide (i = j)) as [Hij|Hij];
      destruct (decide (j ∈ i :: rest)) as [Hc|Hc];
      try done; try (subst; done);
      first [ exfalso; apply Hc, elem_of_cons; by auto
            | apply elem_of_cons in Hc as [?|?]; by (congruence || done) ].
Qed.
End Distinct.

Lemma gradient_loop_length ss err movie user indices : forall nodes,
  length (gradient_loop lambda ss err movie user indices nodes) = length nodes.
Proof.
  unfold gradient_loop.
  induction indices as [|i rest IH]; intros nodes; cbn [fold_left]; [done|].
  by rewrite IH, gradient_iteration_length.
Qed.

Lemma gradient_loop_counters ss err movie user indices : forall nodes k,
  updates (gradient_loop lambda ss err movie user indices nodes !!! k)
    = updates (nodes !!! k) /\
  edge_offset (gradient_loop lambda ss err movie user indices nodes !!! k)
    = edge_offset (nodes !!! k).
Proof.
  unfold gradient_loop.
  induction indices as [|i rest IH]; intros nodes k; cbn [fold_left]; [done|].
  destruct (IH (gradient_iteration lambda ss err movie user nodes i) k)
    as [-> ->].
  apply gradient_iteration_counters.
Qed.

Lemma gradient_loop_other ss err movie user indices : forall nodes k,
  k ≠ movie -> k ≠ user ->
  gradient_loop lambda ss err movie user indices nodes !! k = nodes !! k.
Proof.
  unfold gradient_loop.
  induction indices as [|i rest IH]; intros nodes k ? ?; cbn [fold_left];
    [done|].
  by rewrite IH, gradient_iteration_other.
Qed.

(** What [doGradientUpdate] leaves in component [i] of the two vectors. *)
Lemma doGradientUpdate_with_latent nodes movie user edge_rating ss i :
  movie ≠ user ->
  (movie < length nodes)%nat -> (user < length nodes)%nat ->
  length (latent_vector (nodes !!! movie)) = D ->
  length (latent_vector (nodes !!! user)) = D ->
  (i < D)%nat ->
  let cur_error := IZR edge_rating - vector_dot_with D nodes movie user in
  let nodes' := doGradientUpdate_with D lambda nodes movie user edge_rating ss in
  latent nodes' movie i =
    movie_step lambda ss cur_error (latent nodes movie i) (latent nodes user i) /\
  latent nodes' user i =
    user_step lambda ss cur_error (latent nodes movie i) (latent nodes user i).
Proof.
  intros Hne Hm Hu Hlm Hlu Hi. cbv zeta. unfold doGradientUpdate_with.
  set (err := IZR edge_rating - vector_dot_with D nodes movie user).
  destruct (gradient_loop_latent movie user Hne ss err (seq 0 D) nodes i)
    as [Em Eu].
  - apply NoDup_seq.
  - intros k Hk%elem_of_seq. unfold in_bounds. rewrite Hlm, Hlu. lia.
  - cbv zeta in Em, Eu. rewrite Em, Eu.
    rewrite !decide_True by (apply elem_of_seq; lia). done.
Qed.
End KernelFacts.

Local Open Scope R_scope.






(** C9. When the rating equals the dot product of the two vectors, one
    step of the kernel multiplies every component of both vectors by
    [1 - step_size * LAMBDA]; when that factor lies between 0 and 1 the
    absolute value of every component is multiplied by it and so does not
    grow. *)
Theorem zero_error_step_scales nodes movie user edge_rating ss i :
  movie ≠ user ->
  (movie < length nodes)%nat -> (user < length nodes)%nat ->
  length (latent_vector (nodes !!! movie)) = LATENT_VECTOR_SIZE ->
  length (latent_vector (nodes !!! user)) = LATENT_VECTOR_SIZE ->
  (i < LATENT_VECTOR_SIZE)%nat ->
  IZR edge_rating = vector_dot nodes movie user ->
  let factor := 1 - ss * LAMBDA in
  let nodes' := doGradientUpdate nodes movie user edge_rating ss in
  latent nodes' movie i = factor * latent nodes movie i /\
  latent nodes' user i = factor * latent nodes user i /\
  (0 <= ss * LAMBDA <= 1 ->
   Rabs (latent nodes' movie i) = factor * Rabs (latent nodes movie i) /\
   Rabs (latent nodes' user i) = factor * Rabs (latent nodes user i) /\
   Rabs (latent nodes' movie i) <= Rabs (latent nodes movie i) /\
   Rabs (latent nodes' user i) <= Rabs (latent nodes user i)).
Proof.
  intros Hne Hm Hu Hlm Hlu Hi Hdot. cbv zeta.
  unfold doGradientUpdate, vector_dot in *.
  destruct (doGradientUpdate_with_latent LATENT_VECTOR_SIZE LAMBDA
              nodes movie user edge_rating ss i Hne Hm Hu Hlm Hlu Hi)
    as [Em Eu].
  cbv zeta in Em, Eu.
  rewrite Hdot in Em, Eu. unfold movie_step in Em. unfold user_step in Eu.
  set (m' := latent (doGradientUpdate_with _ _ nodes movie user edge_rating ss)
                    movie i) in *.
  set (u' := latent (doGradientUpdate_with _ _ nodes movie user edge_rating ss)
                    user i) in *.
  assert (Em' : m' = (1 - ss * LAMBDA) * latent nodes movie i)
    by (rewrite Em; ring).
  assert (Eu' : u' = (1 - ss * LAMBDA) * latent nodes user i)
    by (rewrite Eu; ring).
  split; [exact Em'|]. split; [exact Eu'|].
  intros [H0 H1]. rewrite Em', Eu', !Rabs_mult.
  rewrite (Rabs_right (1 - ss * LAMBDA)) by lra.
  pose proof (Rabs_pos (latent nodes movie i)).
  pose proof (Rabs_pos (latent nodes user i)).
  split; [ring|]. split; [ring|]. split; nra.
Qed.

Lemma zero_error_step_scales_witness :
  latent (doGradientUpdate unit_nodes 0 1 2 (1 / 1000)) 0 0
    = (1 - 1 / 1000 * LAMBDA) * latent unit_nodes 0 0 /\
  latent (doGradientUpdate unit_nodes 0 1 2 (1 / 1000)) 1 0
    = (1 - 1 / 1000 * LAMBDA) * latent unit_nodes 1 0 /\
  (0 <= 1 / 1000 * LAMBDA <= 1 ->
   Rabs (latent (doGradientUpdate unit_nodes 0 1 2 (1 / 1000)) 0 0)
     = (1 - 1 / 1000 * LAMBDA) * Rabs (latent unit_nodes 0 0) /\
   Rabs (latent (doGradientUpdate unit_nodes 0 1 2 (1 / 1000)) 1 0)
     = (1 - 1 / 1000 * LAMBDA) * Rabs (latent unit_nodes 1 0) /\
   Rabs (latent (doGradientUpdate unit_nodes 0 1 2 (1 / 1000)) 0 0)
     <= Rabs (latent unit_nodes 0 0) /\
   Rabs (latent (doGradientUpdate unit_nodes 0 1 2 (1 / 1000)) 1 0)
     <= Rabs (latent unit_nodes 1 0)).
Proof.
  apply (zero_error_step_scales unit_nodes 0%nat 1%nat 2%Z (1 / 1000) 0%nat).
  - discriminate.
  - cbn; lia.
  - cbn; lia.
  - reflexivity.
  - reflexivity.
  - unfold LATENT_VECTOR_SIZE; lia.
  - unfold vector_dot, vector_dot_with, latent, unit_nodes; cbn; lra.
Defined.

Section Frame.
Local Open Scope R_scope.

(** C10. A call of [doGradientUpdate] leaves the length of the node array,
    the [updates] counter and the [edge_offset] cursor of every node
    (the two it is given included) and every node other than the two as
    they were; the call site leaves the edges, and so the ratings, as they
    were. *)
Theorem doGradientUpdate_frame nodes movie user edge_rating ss k :
  let nodes' := doGradientUpdate nodes movie user edge_rating ss in
  length nodes' = length nodes /\
  updates (nodes' !!! k) = updates (nodes !!! k) /\
  edge_offset (nodes' !!! k) = edge_offset (nodes !!! k) /\
  (k ≠ movie -> k ≠ user -> nodes' !! k = nodes !! k) /\
  (forall w position e,
     out_edges (graph (gradient_call ss movie position e w))
     = out_edges (graph w)).
Proof.
  cbv zeta. unfold doGradientUpdate, doGradientUpdate_with.
  split; [apply gradient_loop_length|].
  split; [apply gradient_loop_counters|].
  split; [apply gradient_loop_counters|].
  split; [apply gradient_loop_other|].
  intros w position e. exact eq_refl.
Qed.

Lemma doGradientUpdate_frame_witness :
  doGradientUpdate unit_nodes 0 1 5 (1 / 1000) !! 2%nat = unit_nodes !! 2%nat.
Proof.
  apply (doGradientUpdate_frame unit_nodes 0%nat 1%nat 5%Z (1 / 1000) 2%nat);
    discriminate.
Defined.
End Frame.

(** ** Step-size schedules *)

Section Schedules.
Local Open Scope R_scope.

Lemma u32_small x : (0 <= x < 2 ^ 32)%Z -> u32 x = x.
Proof. intros. unfold u32. by apply Z.mod_small. Qed.







(** ** Initialisation *)

(** C7, at the least value of [std::rand]: [genRand] returns -1, and at
    [RAND_MAX] it returns 1; both are outside the open interval. *)
Theorem genRand_reaches_the_ends (RAND_MAX : Z) :
  genRand RAND_MAX 0 = -1 /\
  ((0 < RAND_MAX)%Z -> genRand RAND_MAX RAND_MAX = 1) /\
  ~ (-1 < genRand RAND_MAX 0 < 1).
Proof.
  assert (H0 : genRand RAND_MAX 0 = -1) by (unfold genRand; lra).
  split; [exact H0|]. split.
  - intros H. unfold genRand.
    assert (IZR RAND_MAX <> 0) by (apply not_0_IZR; lia).
    unfold Rdiv. rewrite Rinv_r by assumption. lra.
  - rewrite H0. lra.
Qed.
End Schedules.

(** ** Cursors, counters and the log *)


Section WorldFacts.
Local Open Scope Z_scope.

Lemma with_node_edges f n w m : edges (with_node f n w) m = edges w m.
Proof. exact eq_refl. Qed.

Lemma with_node_applied f n w : applied (with_node f n w) = applied w.
Proof. exact eq_refl. Qed.

Lemma with_node_getData f n w m :
  getData (with_node f n w) m =
  if decide (n = m /\ (n < length (node_data (graph w)))%nat)
  then f (getData w n) else getData w m.
Proof.
  unfold getData, with_node. cbn [graph node_data].
  apply list_lookup_total_insert.
Qed.

Lemma with_node_getData_ne f n w m :
  n ≠ m -> getData (with_node f n w) m = getData w m.
Proof.
  intros. rewrite with_node_getData.
  destruct (decide _) as [[? _]|]; [contradiction|exact eq_refl].
Qed.

Lemma with_node_length f n w :
  length (node_data (graph (with_node f n w))) = length (node_data (graph w)).
Proof. unfold with_node. cbn [graph node_data]. apply length_insert. Qed.

Lemma gradient_call_edges ss movie position e w m :
  edges (gradient_call ss movie position e w) m = edges w m.
Proof. exact eq_refl. Qed.

Lemma gradient_call_length ss movie position e w :
  length (node_data (graph (gradient_call ss movie position e w)))
  = length (node_data (graph w)).
Proof.
  unfold gradient_call. cbn [graph node_data].
  unfold doGradientUpdate, doGradientUpdate_with. apply gradient_loop_length.
Qed.

Lemma gradient_call_cursor ss movie position e w m :
  cursor (gradient_call ss movie position e w) m = cursor w m.
Proof.
  unfold cursor, getData, gradient_call. cbn [graph node_data].
  unfold doGradientUpdate, doGradientUpdate_with. apply gradient_loop_counters.
Qed.

Lemma gradient_call_updates ss movie position e w m :
  updates (getData (gradient_call ss movie position e w) m)
  = updates (getData w m).
Proof.
  unfold getData, gradient_call. cbn [graph node_data].
  unfold doGradientUpdate, doGradientUpdate_with. apply gradient_loop_counters.
Qed.



Lemma cursor_outside w m : ¬ in_graph w m -> cursor w m = 0.
Proof.
  unfold in_graph, cursor, getData. intros H.
  rewrite list_lookup_total_alt, lookup_ge_None_2 by lia. exact eq_refl.
Qed.

Lemma incr_edge_offset_cursor m w k :
  cursor (incr_edge_offset m w) k =
  if decide (m = k /\ in_graph w m) then u32 (cursor w m + 1) else cursor w k.
Proof.
  unfold cursor, incr_edge_offset. rewrite with_node_getData.
  unfold in_graph. destruct (decide _); exact eq_refl.
Qed.

Lemma incr_updates_cursor m w k : cursor (incr_updates m w) k = cursor w k.
Proof.
  unfold cursor, incr_updates. rewrite with_node_getData.
  destruct (decide _) as [[-> _]|]; exact eq_refl.
Qed.

Lemma reset_edge_offset_cursor m w k :
  cursor (reset_edge_offset m w) k =
  if decide (m = k /\ in_graph w m) then 0 else cursor w k.
Proof.
  unfold cursor, reset_edge_offset. rewrite with_node_getData.
  unfold in_graph. destruct (decide _); exact eq_refl.
Qed.

Lemma incr_updates_updates m w k :
  updates (getData (incr_updates m w) k) =
  if decide (m = k /\ in_graph w m) then u32 (updates (getData w m) + 1)
  else updates (getData w k).
Proof.
  unfold incr_updates. rewrite with_node_getData.
  unfold in_graph. destruct (decide _); exact eq_refl.
Qed.

Lemma incr_edge_offset_updates m w k :
  updates (getData (incr_edge_offset m w) k) = updates (getData w k).
Proof.
  unfold incr_edge_offset. rewrite with_node_getData.
  destruct (decide _) as [[-> _]|]; exact eq_refl.
Qed.

Lemma reset_edge_offset_updates m w k :
  updates (getData (reset_edge_offset m w) k) = updates (getData w k).
Proof.
  unfold reset_edge_offset. rewrite with_node_getData.
  destruct (decide _) as [[-> _]|]; exact eq_refl.
Qed.

Lemma u32_add_1_l x n : u32 (u32 (x + 1) + n) = u32 (x + (1 + n)).
Proof. unfold u32. rewrite Zplus_mod_idemp_l. f_equal. lia. Qed.

Lemma u32_idem x : u32 (u32 x) = u32 x.
Proof. unfold u32. apply Z.mod_mod. lia. Qed.

(** The state after the body and the increment of one pass of an edge
    loop. *)
Lemma edge_pass_spec ss m position e w :
  let w' := incr_edge_offset m
              (incr_updates m (gradient_call ss m position e w)) in
  (forall k, cursor w' k =
     if decide (m = k /\ in_graph w m) then u32 (cursor w m + 1)
     else cursor w k) /\
  (forall k, updates (getData w' k) =
     if decide (m = k /\ in_graph w m) then u32 (updates (getData w m) + 1)
     else updates (getData w k)) /\
  (forall k, edges w' k = edges w k) /\
  length (node_data (graph w')) = length (node_data (graph w)) /\
  applied w' = (m, position) :: applied w.
Proof.
  cbv zeta.
  assert (Hg : in_graph (gradient_call ss m position e w) m <-> in_graph w m)
    by (unfold in_graph; by rewrite gradient_call_length).
  assert (Hi : in_graph (incr_updates m (gradient_call ss m position e w)) m
               <-> in_graph w m).
  { unfold in_graph, incr_updates. rewrite with_node_length.
    by rewrite gradient_call_length. }
  split; [|split; [|split; [|split]]].
  - intros k. rewrite incr_edge_offset_cursor, !incr_updates_cursor,
      !gradient_call_cursor.
    destruct (decide (m = k /\ in_graph w m)) as [[? ?]|Hn].
    + rewrite decide_True; [exact eq_refl|]. split; [assumption|by apply Hi].
    + rewrite decide_False; [exact eq_refl|].
      intros [? ?]. apply Hn. split; [assumption|by apply Hi].
  - intros k. rewrite incr_edge_offset_updates, incr_updates_updates,
      !gradient_call_updates.
    destruct (decide (m = k /\ in_graph w m)) as [[? ?]|Hn].
    + rewrite decide_True; [exact eq_refl|]. split; [assumption|by apply Hg].
    + rewrite decide_False; [exact eq_refl|].
      intros [? ?]. apply Hn. split; [assumption|by apply Hg].
  - intros k. exact eq_refl.
  - unfold incr_edge_offset, incr_updates. rewrite !with_node_length.
    apply gradient_call_length.
  - exact eq_refl.
Qed.

(** What the edge loop of a blocked operator does to the state. *)
Lemma edge_loop_spec ss bound m : forall es position w,
  0 <= cursor w m -> cursor w m + Z.of_nat (length es) < 2 ^ 32 ->
  let n := within bound es in
  let w' := edge_loop ss bound m position es w in
  (in_graph w m -> cursor w' m = cursor w m + Z.of_nat n) /\
  (forall k, k ≠ m -> cursor w' k = cursor w k) /\
  (forall k, edges w' k = edges w k) /\
  length (node_data (graph w')) = length (node_data (graph w)) /\
  applied w' = visited m position n ++ applied w /\
  (in_graph w m ->
   u32 (updates (getData w' m)) = u32 (updates (getData w m) + Z.of_nat n)) /\
  (forall k, k ≠ m -> updates (getData w' k) = updates (getData w k)).
Proof.
  induction es as [|e es IH]; intros position w Hc Hfit; cbv zeta.
  - cbn [within edge_loop visited]. rewrite !Z.add_0_r. done.
  - cbn [within edge_loop]. destruct (bound <? getEdgeDst e) eqn:Hb.
    + cbn [visited]. rewrite !Z.add_0_r. done.
    + set (w1 := incr_edge_offset m
                   (incr_updates m (gradient_call ss m position e w))).
      destruct (edge_pass_spec ss m position e w)
        as (Hcur & Hupd & Hedges & Hlen & Happ).
      cbv zeta in Hcur, Hupd, Hedges, Hlen, Happ. fold w1 in Hcur, Hupd, Hedges, Hlen, Happ.
      cbn [length] in Hfit.
      assert (Hg1 : in_graph w1 m <-> in_graph w m)
        by (unfold in_graph; by rewrite Hlen).
      assert (Hc1 : cursor w1 m =
                    if decide (in_graph w m) then cursor w m + 1 else cursor w m).
      { rewrite Hcur. destruct (decide (in_graph w m)) as [Hin|Hin].
        - rewrite decide_True by done. apply u32_small. lia.
        - rewrite decide_False; [exact eq_refl|]. by intros [_ ?]. }
      destruct (IH (S position) w1) as (I1 & I2 & I3 & I4 & I5 & I6 & I7).
      { rewrite Hc1. destruct (decide _); lia. }
      { rewrite Hc1. destruct (decide _); lia. }
      cbv zeta in I1, I2, I3, I4, I5, I6, I7.
      split; [|split; [|split; [|split; [|split; [|split]]]]].
      * intros Hin. rewrite I1 by (by apply Hg1). rewrite Hc1.
        rewrite decide_True by done. lia.
      * intros k Hk. rewrite I2 by done. rewrite Hcur.
        rewrite decide_False; [exact eq_refl|]. intros [? _]. congruence.
      * intros k. by rewrite I3.
      * by rewrite I4.
      * rewrite I5, Happ. cbn [visited]. by rewrite <- app_assoc.
      * intros Hin. rewrite I6 by (by apply Hg1). rewrite Hupd.
        rewrite decide_True by done. rewrite u32_add_1_l. f_equal. lia.
      * intros k Hk. rewrite I7 by done. rewrite Hupd.
        rewrite decide_False; [exact eq_refl|]. intros [? _]. congruence.
Qed.
End WorldFacts.


Section Visits.
Local Open Scope Z_scope.

Lemma same_edges_refl w : same_edges w w.
Proof. by split. Qed.

Lemma same_edges_trans w1 w2 w3 :
  same_edges w1 w2 -> same_edges w2 w3 -> same_edges w1 w3.
Proof.
  intros [E1 L1] [E2 L2]. split.
  - intros k. by rewrite E2, E1.
  - by rewrite L2, L1.
Qed.

Lemma same_edges_degree w w' k : same_edges w w' -> degree w' k = degree w k.
Proof. intros [E _]. unfold degree. by rewrite E. Qed.

Lemma same_edges_in_graph w w' k : same_edges w w' -> in_graph w' k <-> in_graph w k.
Proof. intros [_ L]. unfold in_graph. by rewrite L. Qed.

Lemma remaining_edges_length w m :
  0 <= cursor w m <= degree w m ->
  Z.of_nat (length (remaining_edges w m)) = degree w m - cursor w m.
Proof.
  intros H. unfold remaining_edges, degree, cursor in *.
  rewrite length_drop. lia.
Qed.

Lemma within_le bound es : (within bound es <= length es)%nat.
Proof.
  induction es as [|e es IH]; cbn [within length]; [lia|].
  destruct (bound <? getEdgeDst e); lia.
Qed.

(** The visit of one movie by a blocked operator. *)
Lemma visit_movie_spec ss bound (at_last_user : bool) w m :
  cursors_ok w -> degrees_fit w ->
  let n := within bound (remaining_edges w m) in
  let w' := visit_movie ss bound at_last_user w m in
  same_edges w w' /\ cursors_ok w' /\ degrees_fit w' /\
  cursor w' m =
    (if at_last_user then 0
     else if decide (in_graph w m) then cursor w m + Z.of_nat n else cursor w m) /\
  (forall k, k ≠ m -> cursor w' k = cursor w k) /\
  applied w' = visited m (Z.to_nat (cursor w m)) n ++ applied w /\
  (in_graph w m ->
   u32 (updates (getData w' m)) = u32 (updates (getData w m) + Z.of_nat n)) /\
  (forall k, k ≠ m -> updates (getData w' k) = updates (getData w k)).
Proof.
  intros Hok Hfit. cbv zeta. unfold visit_movie.
  fold (cursor w m).
  pose proof (Hok m) as Hm. pose proof (Hfit m) as Hd.
  pose proof (remaining_edges_length w m Hm) as Hlen.
  pose proof (within_le bound (remaining_edges w m)) as Hle.
  destruct (edge_loop_spec ss bound m (remaining_edges w m)
              (Z.to_nat (cursor w m)) w) as (I1 & I2 & I3 & I4 & I5 & I6 & I7);
    [lia | lia |].
  cbv zeta in I1, I2, I3, I4, I5, I6, I7.
  set (w1 := edge_loop ss bound m (Z.to_nat (cursor w m))
               (remaining_edges w m) w) in *.
  assert (Hs1 : same_edges w w1) by (by split).
  assert (Hc1 : cursor w1 m =
                if decide (in_graph w m)
                then cursor w m + Z.of_nat (within bound (remaining_edges w m))
                else cursor w m).
  { destruct (decide (in_graph w m)) as [Hin|Hin]; [by apply I1|].
    rewrite (cursor_outside w m Hin). apply cursor_outside.
    by rewrite (same_edges_in_graph w w1). }
  assert (Hok1 : cursors_ok w1).
  { intros k. rewrite (same_edges_degree w w1) by done.
    destruct (decide (k = m)) as [->|Hk].
    - rewrite Hc1. destruct (decide _); lia.
    - rewrite I2 by done. apply Hok. }
  destruct at_last_user.
  - assert (Hs2 : same_edges w (reset_edge_offset m w1)).
    { split; [intros k; unfold reset_edge_offset; by rewrite with_node_edges, I3|].
      unfold reset_edge_offset. by rewrite with_node_length. }
    assert (Hr : forall k, cursor (reset_edge_offset m w1) k =
                           if decide (k = m) then 0 else cursor w k).
    { intros k. rewrite reset_edge_offset_cursor.
      destruct (decide (k = m)) as [->|Hk].
      - destruct (decide (m = m /\ in_graph w1 m)) as [|Hn]; [exact eq_refl|].
        apply cursor_outside. intros Hin. apply Hn. by split.
      - rewrite decide_False by (intros [? _]; congruence). by apply I2. }
    split; [done|]. split.
    { intros k. rewrite (same_edges_degree w _) by done. rewrite Hr.
      destruct (decide (k = m)); [|apply Hok].
      pose proof (Hok k). lia. }
    split. { intros k. rewrite (same_edges_degree w _) by done. apply Hfit. }
    split. { rewrite Hr. by rewrite decide_True. }
    split. { intros k Hk. rewrite Hr. by rewrite decide_False. }
    split. { unfold reset_edge_offset. by rewrite with_node_applied. }
    split. { intros Hin. rewrite reset_edge_offset_updates. by apply I6. }
    intros k Hk. rewrite reset_edge_offset_updates. by apply I7.
  - split; [done|]. split; [done|].
    split. { intros k. rewrite (same_edges_degree w _) by done. apply Hfit. }
    done.
Qed.

End Visits.


Section Operators.
Local Open Scope Z_scope.

Lemma bind_Done {A B} (c : Outcome A) (k : A -> Outcome B) b :
  c ≫= k = Done b -> exists a, c = Done a /\ k a = Done b.
Proof. destruct c as [a| |f]; cbn; [eauto|discriminate|discriminate]. Qed.








Section Grid.
Variables M U : Z.
Variable ss : R.
Variable wi : ThreadWorkItem.
Let ms := movie_range (movieRangeStart wi) (movieRangeEnd wi).











End Grid.
End Operators.

(** ** The blocked grid *)

Section GridCursors.
Local Open Scope Z_scope.




Lemma two_by_four_ok :
  cursors_ok (mkWorld two_by_four []) /\ degrees_fit (mkWorld two_by_four []).
Proof.
  split; intros m; unfold cursor, degree, getData, edges, two_by_four;
    do 6 (destruct m as [|m]; [cbn; lia|]); destruct m; cbn; lia.
Qed.


End GridCursors.

(** ** Runs on small graphs *)

Section Runs.
Local Open Scope Z_scope.

Variable RAND_MAX : Z.
Variable rand : nat -> Z.
Variable random_shuffle : Z -> list nat -> list nat.

(** C3, on one movie rated by the users 1, 2 and 3 and the work item of a
    single worker, whose user range starts at 0: the advancer compares
    with [userIdToUserNode 0 = 0 + M + 1 = 2] and leaves the cursor at 2,
    behind the edges to the nodes 1 and 2; the edges whose destination is
    at most [userRangeStart + M = 1] are one. *)
Theorem advancer_skips_one_more :
  let w := mkWorld one_by_three [] in
  let workItem := block_work_item 1 3 1 2048 512 0 in
  userRangeStart workItem = 0 /\
  userIdToUserNode 1 (userRangeStart workItem) = 2 /\
  observe (fun w' => cursor w' 0) (advance_edge_iterators 1 workItem w) = Some 2 /\
  within (userRangeStart workItem + 1) (edges w 0) = 1%nat.
Proof. cbv zeta. repeat split; vm_compute; exact eq_refl. Qed.

(** C1, on two movies rated by four users each and two workers.  With the
    default scheduler the first round calls the kernel on five of the
    eight edges, and the whole run of five rounds calls it four times on
    the edges at the positions 0 and 1 of movie 0 and 3 of movie 1.  With
    the scheduler [block] no round calls it on the edge to the last user
    of either movie. *)
Theorem grid_rounds_skip_edges :
  observe (fun s => applied s.1)
    (first_substeps 2 4 (sgd_block_users_movies 2 4 100) IntelLearnFN
       2 2048 512 2 (mkWorld two_by_four []))
  = Some [(1, 2); (1, 1); (1, 0); (0, 3); (0, 2)]%nat /\
  observe (fun w => (times_applied w 0 0, times_applied w 0 1,
                     times_applied w 1 3, times_applied w 0 2))
    (main RAND_MAX rand random_shuffle 100 blockAndSliceBoth Intel
       2 2048 512 two_by_four)
  = Some (4, 4, 4, 5)%nat /\
  observe (fun w => (times_applied w 0 3, times_applied w 1 3,
                     times_applied w 0 2))
    (main RAND_MAX rand random_shuffle 100 block Intel 2 2048 512 two_by_four)
  = Some (0, 0, 5)%nat.
Proof. repeat split; vm_compute; exact eq_refl. Qed.

(** C6, on one movie with one rating: after the ten rounds of [nodeMovie]
    and of [edgeMovie] the kernel was called ten times with the movie and
    its [updates] field is 0; the default scheduler counts its calls. *)
Theorem naive_schedulers_do_not_count :
  observe (fun w => (times_movie w 0, updates (getData w 0)))
    (main RAND_MAX rand random_shuffle 100 nodeMovie Intel 1 2048 512 one_by_one)
  = Some (10%nat, 0) /\
  observe (fun w => (times_movie w 0, updates (getData w 0)))
    (main RAND_MAX rand (fun _ movies => movies) 100 edgeMovie Intel
       1 2048 512 one_by_one)
  = Some (10%nat, 0) /\
  observe (fun w => (times_movie w 0, updates (getData w 0)))
    (main RAND_MAX rand random_shuffle 100 blockAndSliceBoth Intel
       2 2048 512 two_by_four)
  = Some (18%nat, 18).
Proof. repeat split; vm_compute; exact eq_refl. Qed.

(** C8, on three users and slices of two users, one worker: there is
    [3 / 2 = 1] slice and one lock, the worker is to make [5 * 1]
    acquisitions, and its second one indexes the lock array at 1. *)
Theorem march_indexes_past_the_locks (fuel : nat) :
  main RAND_MAX rand random_shuffle (S (S fuel)) sliceMarch Intel 1 2 512
       one_by_three
  = Undefined (LockIndexOutOfBounds 1).
Proof. vm_compute. exact eq_refl. Qed.
End Runs.

(** ** Further properties of the numeric functions *)

Section Numeric.
Local Open Scope R_scope.

Lemma MINVAL_lt_MAXVAL : MINVAL < 0 < MAXVAL.
Proof.
  unfold MINVAL, MAXVAL.
  assert (0 < 10 ^ 100) by (apply pow_lt; lra). lra.
Qed.

(** [calcPrediction] clamps: its value lies between MINVAL and MAXVAL, and
    is the dot product whenever the dot product does. *)
Theorem calcPrediction_clamps nodes movie user :
  MINVAL <= calcPrediction nodes movie user <= MAXVAL /\
  (MINVAL <= vector_dot nodes movie user <= MAXVAL ->
   calcPrediction nodes movie user = vector_dot nodes movie user) /\
  (MAXVAL <= vector_dot nodes movie user ->
   calcPrediction nodes movie user = MAXVAL) /\
  (vector_dot nodes movie user <= MINVAL ->
   calcPrediction nodes movie user = MINVAL).
Proof.
  pose proof MINVAL_lt_MAXVAL as Hb.
  unfold calcPrediction. set (dp := vector_dot nodes movie user).
  unfold Rmax, Rmin.
  destruct (Rle_dec MAXVAL dp);
    [destruct (Rle_dec MINVAL MAXVAL)|destruct (Rle_dec MINVAL dp)];
    repeat split; intros; lra.
Qed.

(** A step of size 0 leaves every component of both vectors as it was. *)
Theorem zero_step_keeps_vectors nodes movie user edge_rating i :
  movie ≠ user ->
  (movie < length nodes)%nat -> (user < length nodes)%nat ->
  length (latent_vector (nodes !!! movie)) = LATENT_VECTOR_SIZE ->
  length (latent_vector (nodes !!! user)) = LATENT_VECTOR_SIZE ->
  (i < LATENT_VECTOR_SIZE)%nat ->
  let nodes' := doGradientUpdate nodes movie user edge_rating 0 in
  latent nodes' movie i = latent nodes movie i /\
  latent nodes' user i = latent nodes user i.
Proof.
  intros Hne Hm Hu Hlm Hlu Hi. cbv zeta. unfold doGradientUpdate.
  destruct (doGradientUpdate_with_latent LATENT_VECTOR_SIZE LAMBDA
              nodes movie user edge_rating 0 i Hne Hm Hu Hlm Hlu Hi)
    as [Em Eu].
  cbv zeta in Em, Eu. rewrite Em, Eu. unfold movie_step, user_step.
  split; ring.
Qed.

Lemma zero_step_keeps_vectors_witness :
  latent (doGradientUpdate unit_nodes 0 1 5 0) 0 0 = latent unit_nodes 0 0 /\
  latent (doGradientUpdate unit_nodes 0 1 5 0) 1 0 = latent unit_nodes 1 0.
Proof.
  apply (zero_step_keeps_vectors unit_nodes 0%nat 1%nat 5%Z 0%nat).
  - discriminate.
  - cbn; lia.
  - cbn; lia.
  - reflexivity.
  - reflexivity.
  - unfold LATENT_VECTOR_SIZE; lia.
Defined.

Lemma dot_fold_symmetric nodes a b indices : forall acc,
  fold_left (fun dp i => dp + latent nodes a i * latent nodes b i) indices acc
  = fold_left (fun dp i => dp + latent nodes b i * latent nodes a i) indices acc.
Proof.
  induction indices as [|i rest IH]; intros acc; cbn [fold_left];
    [exact eq_refl|].
  rewrite (Rmult_comm (latent nodes a i)). apply IH.
Qed.

(** The dot product does not depend on the order of its two arguments. *)
Theorem vector_dot_symmetric nodes movie user :
  vector_dot nodes movie user = vector_dot nodes user movie.
Proof. unfold vector_dot, vector_dot_with. apply dot_fold_symmetric. Qed.



End Numeric.

(** ** Initialisation *)

Section Initialisation.
Local Open Scope Z_scope.

Variable RAND_MAX : Z.
Variable rand : nat -> Z.

Lemma genRand_closed_interval r :
  0 < RAND_MAX -> 0 <= r <= RAND_MAX ->
  (-1 <= genRand RAND_MAX r <= 1)%R.
Proof.
  intros HM [H0 H1]. unfold genRand.
  assert (0 < IZR RAND_MAX)%R by (apply IZR_lt in HM; exact HM).
  assert (0 <= IZR r)%R by (apply IZR_le in H0; exact H0).
  assert (IZR r <= IZR RAND_MAX)%R by (apply IZR_le; exact H1).
  assert (0 <= IZR r / IZR RAND_MAX <= 1)%R.
  { assert (Hi : (0 < / IZR RAND_MAX)%R) by (apply Rinv_0_lt_compat; lra).
    assert (He : (IZR RAND_MAX * / IZR RAND_MAX = 1)%R)
      by (apply Rinv_r; lra).
    unfold Rdiv. split; nra. }
  lra.
Qed.

Lemma movies_among_snoc g ns n :
  movies_among g (ns ++ [n]) =
  (movies_among g ns + if decide (out_edges g !!! n = []) then 0 else 1)%nat.
Proof.
  unfold movies_among. rewrite filter_app, length_app. f_equal.
  destruct (decide (out_edges g !!! n = [])) as [He|Hne].
  - rewrite filter_cons_False by (intros H; by apply H). exact eq_refl.
  - rewrite filter_cons_True by exact Hne. exact eq_refl.
Qed.

Lemma ratings_among_snoc g ns n :
  ratings_among g (ns ++ [n]) =
  (ratings_among g ns + length (out_edges g !!! n))%nat.
Proof. unfold ratings_among. rewrite sum_list_with_app. cbn. lia. Qed.

(** The state of the loop of [initializeGraphData] after the first [n]
    nodes. *)
Lemma initialize_upto g n :
  (n <= length (node_data g))%nat ->
  let s := fold_left (initialize_node RAND_MAX rand) (seq 0 n)
                     (g, mkCounts 0 0 0) in
  out_edges s.1 = out_edges g /\
  length (node_data s.1) = length (node_data g) /\
  (forall k, (k < n)%nat ->
     node_data s.1 !!! k =
     mkNode ((fun i => genRand RAND_MAX (rand (LATENT_VECTOR_SIZE * k + i)%nat))
               <$> seq 0 LATENT_VECTOR_SIZE) 0 0) /\
  (forall k, (n <= k)%nat -> node_data s.1 !! k = node_data g !! k) /\
  (Z.of_nat n < 2 ^ 32 -> Z.of_nat (ratings_among g (seq 0 n)) < 2 ^ 32 ->
   numMovieNodes s.2 = Z.of_nat (movies_among g (seq 0 n)) /\
   numUserNodes s.2 = Z.of_nat n - Z.of_nat (movies_among g (seq 0 n)) /\
   numRatings s.2 = Z.of_nat (ratings_among g (seq 0 n))).
Proof.
  induction n as [|n IH]; intros Hn; cbv zeta.
  - cbn [seq fold_left fst snd numMovieNodes numUserNodes numRatings].
    split; [done|]. split; [done|]. split; [intros k; lia|].
    split; [done|]. intros _ _. done.
  - rewrite seq_S, fold_left_app. cbn [fold_left].
    destruct IH as (E & L & I & O & C); [lia|]. cbv zeta in E, L, I, O, C.
    set (s := fold_left (initialize_node RAND_MAX rand) (seq 0 n)
                (g, mkCounts 0 0 0)) in *.
    unfold initialize_node. cbn [fst snd out_edges node_data].
    rewrite Nat.add_0_l.
    split; [exact E|]. split; [by rewrite length_insert|].
    split.
    { intros k Hk. destruct (decide (k = n)) as [->|Hne].
      - apply list_lookup_total_insert_eq. lia.
      - rewrite list_lookup_total_insert_ne by done. apply I. lia. }
    split.
    { intros k Hk. rewrite list_lookup_insert_ne by lia. apply O. lia. }
    intros Hfit Hr. rewrite movies_among_snoc, ratings_among_snoc in *.
    destruct C as (C1 & C2 & C3); [lia | lia |].
    cbn [numMovieNodes numUserNodes numRatings]. rewrite E.
    pose proof (length_filter (fun k => out_edges g !!! k ≠ []) (seq 0 n)) as Hf.
    rewrite length_seq in Hf. fold (movies_among g (seq 0 n)) in Hf.
    set (deg := length (out_edges g !!! n)) in *.
    rewrite (u32_small (Z.of_nat deg)) by lia.
    rewrite C1, C2, C3.
    destruct (decide (out_edges g !!! n = [])) as [He|Hne].
    + assert (deg = 0%nat) as -> by (unfold deg; by rewrite He).
      change (0 <? Z.of_nat 0) with false. cbn iota.
      rewrite !u32_small by lia. lia.
    + assert (deg ≠ 0%nat) by (unfold deg; by destruct (out_edges g !!! n)).
      assert (Hlt : (0 <? Z.of_nat deg) = true) by (apply Z.ltb_lt; lia).
      rewrite Hlt. rewrite !u32_small by lia. lia.
Qed.

(** [initializeGraphData] leaves the edges as they are and gives every
    node a counter and a cursor of 0 and a vector of LATENT_VECTOR_SIZE
    components, component [i] of node [k] being [genRand] of the value of
    call [LATENT_VECTOR_SIZE * k + i] of [std::rand], which lies in the
    closed interval from -1 to 1; every cursor lies within its adjacency;
    and, when the numbers of nodes and of edges fit in 32 bits, the counts
    are the number of nodes with edges, the number of nodes without, and
    the number of edges. *)
Theorem initializeGraphData_spec g :
  let r := initializeGraphData RAND_MAX rand g in
  let ns := seq 0 (length (node_data g)) in
  out_edges r.1 = out_edges g /\
  length (node_data r.1) = length (node_data g) /\
  (forall k, (k < length (node_data g))%nat ->
     updates (node_data r.1 !!! k) = 0 /\
     edge_offset (node_data r.1 !!! k) = 0 /\
     length (latent_vector (node_data r.1 !!! k)) = LATENT_VECTOR_SIZE /\
     forall i, (i < LATENT_VECTOR_SIZE)%nat ->
       latent (node_data r.1) k i
       = genRand RAND_MAX (rand (LATENT_VECTOR_SIZE * k + i)%nat) /\
       (0 < RAND_MAX -> (forall j, 0 <= rand j <= RAND_MAX) ->
        (-1 <= latent (node_data r.1) k i <= 1)%R)) /\
  cursors_ok (mkWorld r.1 []) /\
  (Z.of_nat (length (node_data g)) < 2 ^ 32 ->
   Z.of_nat (ratings_among g ns) < 2 ^ 32 ->
   numMovieNodes r.2 = Z.of_nat (movies_among g ns) /\
   numUserNodes r.2
     = Z.of_nat (length (node_data g)) - Z.of_nat (movies_among g ns) /\
   numRatings r.2 = Z.of_nat (ratings_among g ns)).
Proof.
  cbv zeta. unfold initializeGraphData.
  destruct (initialize_upto g (length (node_data g))) as (E & L & I & _ & C);
    [lia|].
  cbv zeta in E, L, I, C.
  set (r := fold_left (initialize_node RAND_MAX rand)
              (seq 0 (length (node_data g))) (g, mkCounts 0 0 0)) in *.
  split; [exact E|]. split; [exact L|]. split; [|split; [|exact C]].
  - intros k Hk. rewrite (I k Hk). cbn [updates edge_offset latent_vector].
    split; [done|]. split; [done|].
    split; [by rewrite length_fmap, length_seq|].
    intros i Hi.
    assert (Hv : latent (node_data r.1) k i
                 = genRand RAND_MAX (rand (LATENT_VECTOR_SIZE * k + i)%nat)).
    { unfold latent. rewrite (I k Hk). cbn [latent_vector].
      apply list_lookup_total_correct.
      rewrite list_lookup_fmap, lookup_seq_lt by done. exact eq_refl. }
    split; [exact Hv|]. intros HM Hrand. rewrite Hv.
    apply genRand_closed_interval; [exact HM|apply Hrand].
  - intros k. unfold cursor, degree, getData. cbn [graph].
    destruct (decide (k < length (node_data g))%nat) as [Hk|Hk].
    + rewrite (I k Hk). cbn [edge_offset]. lia.
    + rewrite list_lookup_total_alt, lookup_ge_None_2 by lia. cbn. lia.
Qed.

End Initialisation.

Lemma initializeGraphData_spec_witness :
  numMovieNodes (initializeGraphData 2147483647 (fun _ => 0%Z) two_by_four).2
    = 2%Z /\
  numUserNodes (initializeGraphData 2147483647 (fun _ => 0%Z) two_by_four).2
    = 4%Z /\
  numRatings (initializeGraphData 2147483647 (fun _ => 0%Z) two_by_four).2
    = 8%Z.
Proof.
  destruct (initializeGraphData_spec 2147483647 (fun _ => 0%Z) two_by_four)
    as (_ & _ & _ & _ & C).
  apply C; vm_compute; exact eq_refl.
Defined.

(** ** The cursor advancer *)

Section Advancer.
Local Open Scope Z_scope.

Lemma with_node_fields f m w k :
  (forall n, latent_vector (f n) = latent_vector n) ->
  (forall n, updates (f n) = updates n) ->
  latent_vector (getData (with_node f m w) k) = latent_vector (getData w k) /\
  updates (getData (with_node f m w) k) = updates (getData w k).
Proof.
  intros Hv Hu. rewrite with_node_getData.
  destruct (decide _) as [[-> _]|]; [by rewrite Hv, Hu|done].
Qed.

(** The edges that [within] counts are those up to the first one beyond
    the bound. *)
Lemma within_spec bound es :
  (forall i, (i < within bound es)%nat -> getEdgeDst (es !!! i) <= bound) /\
  ((within bound es < length es)%nat ->
   bound < getEdgeDst (es !!! within bound es)).
Proof.
  induction es as [|e es [IH1 IH2]]; cbn [within length].
  - split; intros; lia.
  - destruct (bound <? getEdgeDst e) eqn:E.
    + split; [intros i; lia|]. intros _. cbn. lia.
    + split.
      * intros [|i] Hi; cbn; [lia|]. apply IH1. lia.
      * intros Hl. cbn. apply IH2. lia.
Qed.

Lemma advance_loop_spec bound m : forall es w,
  0 <= cursor w m -> cursor w m + Z.of_nat (length es) < 2 ^ 32 ->
  let w' := advance_loop bound m es w in
  same_edges w w' /\ applied w' = applied w /\
  (forall k, latent_vector (getData w' k) = latent_vector (getData w k) /\
             updates (getData w' k) = updates (getData w k)) /\
  (in_graph w m -> cursor w' m = cursor w m + Z.of_nat (within bound es)) /\
  (forall k, k ≠ m -> cursor w' k = cursor w k).
Proof.
  induction es as [|e es IH]; intros w Hc Hfit; cbv zeta;
    cbn [advance_loop within].
  - rewrite Z.add_0_r. split; [apply same_edges_refl|]. done.
  - destruct (bound <? getEdgeDst e) eqn:E.
    + rewrite Z.add_0_r. split; [apply same_edges_refl|]. done.
    + cbn [length] in Hfit.
      set (w1 := incr_edge_offset m w).
      assert (Hs1 : same_edges w w1).
      { split; [done|]. unfold w1, incr_edge_offset. apply with_node_length. }
      assert (Hc1 : cursor w1 m =
                    if decide (in_graph w m) then cursor w m + 1 else cursor w m).
      { unfold w1. rewrite incr_edge_offset_cursor.
        destruct (decide (in_graph w m)) as [Hin|Hin].
        - rewrite decide_True by done. apply u32_small. lia.
        - rewrite decide_False; [exact eq_refl|]. by intros [_ ?]. }
      destruct (IH w1) as (I1 & I2 & I3 & I4 & I5).
      { rewrite Hc1. destruct (decide _); lia. }
      { rewrite Hc1. destruct (decide _); lia. }
      cbv zeta in I1, I2, I3, I4, I5.
      split; [exact (same_edges_trans _ _ _ Hs1 I1)|].
      split; [by rewrite I2|].
      split.
      { intros k. destruct (I3 k) as [-> ->].
        apply with_node_fields; done. }
      split.
      { intros Hin. rewrite I4 by (by apply (same_edges_in_graph w w1)).
        rewrite Hc1, decide_True by done. lia. }
      intros k Hk. rewrite I5 by done. unfold w1.
      rewrite incr_edge_offset_cursor.
      rewrite decide_False; [exact eq_refl|]. intros [? _]. congruence.
Qed.

Lemma remaining_edges_same w w' k :
  same_edges w w' -> cursor w' k = cursor w k ->
  remaining_edges w' k = remaining_edges w k.
Proof.
  intros [E _] Hc. unfold remaining_edges. fold (cursor w' k) (cursor w k).
  by rewrite Hc, E.
Qed.

Lemma advance_pass_spec bound : forall ms w,
  NoDup ms -> cursors_ok w -> degrees_fit w ->
  let w' := fold_left (advance_movie bound) ms w in
  same_edges w w' /\ cursors_ok w' /\ degrees_fit w' /\
  applied w' = applied w /\
  (forall k, latent_vector (getData w' k) = latent_vector (getData w k) /\
             updates (getData w' k) = updates (getData w k)) /\
  (forall k, k ∈ ms -> in_graph w k ->
     cursor w' k = cursor w k + Z.of_nat (within bound (remaining_edges w k))) /\
  (forall k, k ∉ ms -> cursor w' k = cursor w k).
Proof.
  induction ms as [|m ms IH]; intros w Hnd Hok Hfit; cbv zeta; cbn [fold_left].
  - split; [apply same_edges_refl|]. split; [done|]. split; [done|].
    split; [done|]. split; [done|]. split; [|done].
    intros k Hk. by apply elem_of_nil in Hk.
  - apply NoDup_cons in Hnd as [Hm Hnd].
    pose proof (Hok m) as Hcm. pose proof (Hfit m) as Hdm.
    pose proof (remaining_edges_length w m Hcm) as Hlen.
    pose proof (within_le bound (remaining_edges w m)) as Hle.
    destruct (advance_loop_spec bound m (remaining_edges w m) w)
      as (A1 & A2 & A3 & A4 & A5); [lia|lia|].
    cbv zeta in A1, A2, A3, A4, A5.
    fold (advance_movie bound w m) in A1, A2, A3, A4, A5.
    set (w1 := advance_movie bound w m) in *.
    assert (Hok1 : cursors_ok w1).
    { intros k. rewrite (same_edges_degree w w1) by done.
      destruct (decide (k = m)) as [->|Hk]; [|rewrite A5 by done; apply Hok].
      destruct (decide (in_graph w m)) as [Hin|Hin].
      - rewrite A4 by done. lia.
      - rewrite (cursor_outside w1 m)
          by (by rewrite (same_edges_in_graph w w1)).
        rewrite (cursor_outside w m Hin) in Hcm. lia. }
    assert (Hfit1 : degrees_fit w1).
    { intros k. rewrite (same_edges_degree w w1) by done. apply Hfit. }
    destruct (IH w1 Hnd Hok1 Hfit1) as (I1 & I2 & I3 & I4 & I5 & I6 & I7).
    cbv zeta in I1, I2, I3, I4, I5, I6, I7.
    split; [exact (same_edges_trans _ _ _ A1 I1)|].
    split; [done|]. split; [done|]. split; [by rewrite I4|].
    split.
    { intros k. destruct (I5 k) as [-> ->]. apply A3. }
    split.
    + intros k [->|Hk]%elem_of_cons Hin.
      * rewrite I7 by done. by apply A4.
      * assert (k ≠ m) by (intros ->; done).
        rewrite I6; [|done|by apply (same_edges_in_graph w w1)].
        rewrite (remaining_edges_same w w1) by (try done; by apply A5).
        by rewrite A5.
    + intros k Hk. apply not_elem_of_cons in Hk as [Hkm Hk].
      rewrite I7 by done. by apply A5.
Qed.

(** [advance_edge_iterators] moves the cursor of every movie of the row of
    the work item over the leading edges left whose destination is at most
    [userRangeStart + NUM_MOVIE_NODES + 1]: the edges passed have such a
    destination and the edge at the new cursor, if there is one, has a
    larger one.  It calls no kernel and changes no vector, no counter, no
    edge and no cursor of another movie. *)
Theorem advance_edge_iterators_spec M workItem w :
  cursors_ok w -> degrees_fit w ->
  let bound := u32 (u32 (userRangeStart workItem + M) + 1) in
  exists w', advance_edge_iterators M workItem w = Done w' /\
    same_edges w w' /\ cursors_ok w' /\ applied w' = applied w /\
    (forall k, latent_vector (getData w' k) = latent_vector (getData w k) /\
               updates (getData w' k) = updates (getData w k)) /\
    (forall k, k ∉ movie_range (movieRangeStart workItem) (movieRangeEnd workItem) ->
       cursor w' k = cursor w k) /\
    (forall k, k ∈ movie_range (movieRangeStart workItem) (movieRangeEnd workItem) ->
       in_graph w k ->
       let passed := within bound (remaining_edges w k) in
       cursor w' k = cursor w k + Z.of_nat passed /\
       (forall i, (i < passed)%nat ->
          getEdgeDst (remaining_edges w k !!! i) <= bound) /\
       ((passed < length (remaining_edges w k))%nat ->
        bound < getEdgeDst (remaining_edges w k !!! passed))).
Proof.
  intros Hok Hfit bound. unfold advance_edge_iterators, userIdToUserNode.
  fold bound. eexists. split; [exact eq_refl|].
  destruct (advance_pass_spec bound
              (movie_range (movieRangeStart workItem) (movieRangeEnd workItem))
              w) as (P1 & P2 & P3 & P4 & P5 & P6 & P7);
    [apply NoDup_seq|done|done|].
  cbv zeta in P1, P2, P3, P4, P5, P6, P7.
  split; [done|]. split; [done|]. split; [done|]. split; [done|].
  split; [done|].
  intros k Hk Hin. cbv zeta. split; [by apply P6|]. apply within_spec.
Qed.
End Advancer.

Lemma one_by_three_ok :
  cursors_ok (mkWorld one_by_three []) /\ degrees_fit (mkWorld one_by_three []).
Proof.
  split; intros m; unfold cursor, degree, getData, edges, one_by_three;
    do 4 (destruct m as [|m]; [cbn; lia|]); destruct m; cbn; lia.
Qed.

Lemma advance_edge_iterators_spec_witness :
  exists w',
    advance_edge_iterators 1 (block_work_item 1 3 1 2048 512 0)
      (mkWorld one_by_three []) = Done w' /\
    cursors_ok w' /\ applied w' = [].
Proof.
  destruct (advance_edge_iterators_spec 1 (block_work_item 1 3 1 2048 512 0)
              (mkWorld one_by_three [])
              (proj1 one_by_three_ok) (proj2 one_by_three_ok))
    as (w' & Hrun & _ & Hok & Happ & _).
  exists w'. split; [exact Hrun|]. split; [exact Hok|exact Happ].
Defined.

(** ** Whole runs of the blocked schedulers *)

Section WholeRuns.
Local Open Scope Z_scope.

Lemma times_in_visited k m position n :
  length (filter (fun p : nat * nat => p.1 = k) (visited m position n))
  = if decide (k = m) then n else 0%nat.
Proof.
  revert position. induction n as [|n IH]; intros position; cbn [visited].
  - by destruct (decide _).
  - rewrite filter_app, length_app, IH.
    destruct (decide (k = m)) as [->|Hne].
    + rewrite filter_cons_True by done. cbn. lia.
    + rewrite filter_cons_False by (cbn; congruence). cbn. lia.
Qed.

Lemma u32_add_congr a b n : u32 a = u32 b -> u32 (a + n) = u32 (b + n).
Proof.
  unfold u32. intros H.
  rewrite (Z.add_mod a n), (Z.add_mod b n), H by lia. exact eq_refl.
Qed.

Lemma kept_trans w1 w2 w3 : kept w1 w2 -> kept w2 w3 -> kept w1 w3.
Proof.
  intros (S1 & _) (S2 & R). split; [exact (same_edges_trans _ _ _ S1 S2)|done].
Qed.

Lemma kept_refl w : cursors_ok w -> degrees_fit w -> tally w -> kept w w.
Proof. intros. split; [apply same_edges_refl|done]. Qed.

Lemma visit_kept ss bound flag w m :
  kept w w -> kept w (visit_movie ss bound flag w m).
Proof.
  intros (_ & Hok & Hfit & Ht).
  destruct (visit_movie_spec ss bound flag w m Hok Hfit)
    as (V1 & V2 & V3 & _ & _ & V6 & V7 & V8).
  cbv zeta in V1, V2, V3, V6, V7, V8.
  split; [done|]. split; [done|]. split; [done|].
  intros k Hk. apply (same_edges_in_graph w) in Hk; [|done].
  unfold times_movie. rewrite V6, filter_app, length_app, times_in_visited.
  destruct (decide (k = m)) as [->|Hne].
  - rewrite V7 by done. rewrite Nat2Z.inj_add.
    rewrite (Z.add_comm (Z.of_nat (within bound (remaining_edges w m)))).
    apply u32_add_congr. by apply Ht.
  - rewrite V8 by done. cbn [Nat.add]. by apply Ht.
Qed.

Lemma pass_kept ss bound flag : forall ms w,
  kept w w -> kept w (fold_left (visit_movie ss bound flag) ms w).
Proof.
  induction ms as [|m ms IH]; intros w Hw; cbn [fold_left]; [done|].
  pose proof (visit_kept ss bound flag w m Hw) as H1.
  apply (kept_trans _ _ _ H1). apply IH.
  destruct H1 as (_ & ? & ? & ?). by apply kept_refl.
Qed.

Lemma kept_self w w' : kept w w' -> kept w' w'.
Proof. intros (_ & ? & ? & ?). by apply kept_refl. Qed.

Lemma do_all_kept {S I : Type} (world_of : S -> World)
    (fn : I -> S -> Outcome S) items :
  (forall it s s', kept (world_of s) (world_of s) -> fn it s = Done s' ->
     kept (world_of s) (world_of s')) ->
  forall s s', kept (world_of s) (world_of s) -> do_all fn items s = Done s' ->
    kept (world_of s) (world_of s').
Proof.
  intros Hfn. induction items as [|it items IH]; intros s s' Hs;
    cbn [do_all].
  - by intros [= <-].
  - intros (s1 & H1 & H2)%bind_Done.
    pose proof (Hfn it s s1 Hs H1) as K1.
    apply (kept_trans _ _ _ K1). apply IH; [by apply (kept_self (world_of s))|done].
Qed.

Lemma do_all_ends {S I : Type} (fn : I -> S -> Outcome S) items :
  (forall it s, exists s', fn it s = Done s') ->
  forall s, exists s', do_all fn items s = Done s'.
Proof.
  intros Hfn. induction items as [|it items IH]; intros s; cbn [do_all];
    [by eexists|].
  destruct (Hfn it s) as [s1 ->]. cbn. apply IH.
Qed.

Section Operators.
Variables M U : Z.
Variable ss : R.
Variable wi : ThreadWorkItem.

Lemma sgd_block_kept w w' :
  kept w w -> sgd_block U ss wi w = Done w' -> kept w w'.
Proof. intros Hw [= <-]. by apply pass_kept. Qed.

Lemma sgd_block_users_loop_kept fuel : forall cur w w',
  kept w w -> sgd_block_users_loop M U fuel ss wi cur w = Done w' -> kept w w'.
Proof.
  induction fuel as [|fuel IH]; intros cur w w' Hw;
    cbn [sgd_block_users_loop];
    destruct (cur <? userRangeEnd wi); try discriminate;
    try (by intros [= <-]).
  intros Hrun.
  match type of Hrun with
  | sgd_block_users_loop _ _ _ _ _ ?c ?w1 = _ =>
      assert (K1 : kept w w1) by (by apply pass_kept);
      apply (kept_trans _ _ _ K1), (IH c); [by apply (kept_self w)|done]
  end.
Qed.

Lemma movie_slices_loop_kept fuel cbse : forall cur w w',
  kept w w -> movie_slices_loop M U fuel ss wi cbse cur w = Done w' ->
  kept w w'.
Proof.
  induction fuel as [|fuel IH]; intros cur w w' Hw;
    cbn [movie_slices_loop];
    destruct (cur <? movieRangeEnd wi); try discriminate;
    try (by intros [= <-]).
  intros Hrun.
  match type of Hrun with
  | movie_slices_loop _ _ _ _ _ _ ?c ?w1 = _ =>
      assert (K1 : kept w w1) by (by apply pass_kept);
      apply (kept_trans _ _ _ K1), (IH c); [by apply (kept_self w)|done]
  end.
Qed.

Lemma sgd_block_users_movies_loop_kept fuel : forall cur w w',
  kept w w -> sgd_block_users_movies_loop M U fuel ss wi cur w = Done w' ->
  kept w w'.
Proof.
  induction fuel as [|fuel IH]; intros cur w w' Hw;
    cbn [sgd_block_users_movies_loop];
    destruct (cur <? userRangeEnd wi); try discriminate;
    try (by intros [= <-]).
  intros (w1 & H1 & H2)%bind_Done.
  pose proof (movie_slices_loop_kept _ _ _ _ _ Hw H1) as K1.
  apply (kept_trans _ _ _ K1). eapply IH; [by apply (kept_self w)|done].
Qed.

Lemma advance_kept w w' :
  kept w w -> advance_edge_iterators M wi w = Done w' -> kept w w'.
Proof.
  intros (_ & Hok & Hfit & Ht) Hrun.
  destruct (advance_pass_spec (userIdToUserNode M (userRangeStart wi))
              (movie_range (movieRangeStart wi) (movieRangeEnd wi)) w)
    as (P1 & P2 & P3 & P4 & P5 & _); [apply NoDup_seq|done|done|].
  cbv zeta in P1, P2, P3, P4, P5.
  unfold advance_edge_iterators in Hrun. injection Hrun as <-.
  split; [done|]. split; [done|]. split; [done|].
  intros k Hk. apply (same_edges_in_graph w) in Hk; [|done].
  unfold times_movie. rewrite P4. destruct (P5 k) as [_ ->]. by apply Ht.
Qed.
End Operators.

Lemma runBlockSlices_kept M U fn lf W usersPerBlk moviesPerBlk w :
  keeps fn -> kept w w ->
  when_done (runBlockSlices M U fn lf W usersPerBlk moviesPerBlk w) (kept w).
Proof.
  intros Hfn Hw. unfold when_done.
  destruct (runBlockSlices M U fn lf W usersPerBlk moviesPerBlk w)
    as [w'| |] eqn:Hrun; [|done|done].
  unfold runBlockSlices in Hrun.
  apply bind_Done in Hrun as (s0 & Hstart & Hrun).
  apply bind_Done in Hrun as (s1 & Hrounds & Hret).
  injection Hret as <-.
  unfold block_start in Hstart.
  destruct (W =? 0); [discriminate|].
  apply bind_Done in Hstart as (w0 & Hadv & Hret). injection Hret as <-.
  assert (K0 : kept w w0).
  { apply (do_all_kept (fun w => w) (advance_edge_iterators M) _
             (fun it w w' => advance_kept M it w w') w w0 Hw Hadv). }
  apply (kept_trans _ _ _ K0).
  cbn [fst snd] in Hrounds.
  refine (do_all_kept fst _ _ _ _ _ _ Hrounds);
    [|exact (kept_self _ _ K0)].
  intros update s s' Hs Hround. unfold block_round in Hround.
  refine (do_all_kept fst _ _ _ _ _ Hs Hround).
  intros j t t' Ht Hsub. unfold block_substep in Hsub.
  apply bind_Done in Hsub as (w2 & Hall & Hret). injection Hret as <-.
  cbn [fst].
  exact (do_all_kept (fun w => w) _ _ (fun it w w' => Hfn _ it w w') _ _ Ht Hall).
Qed.

Lemma sgd_march_loop_kept M U ss wi fuel : forall s s',
  kept (world s) (world s) -> sgd_march_loop M U fuel ss wi s = Done s' ->
  kept (world s) (world s').
Proof.
  induction fuel as [|fuel IH]; intros s s' Hs; cbn [sgd_march_loop];
    destruct (sliceUpdates s <? u32 (MAX_MOVIE_UPDATES * numSlices wi));
    try discriminate; try (by intros [= <-]).
  intros (s1 & Hit & Hrun)%bind_Done.
  assert (K1 : kept (world s) (world s1)).
  { unfold sgd_march_iteration in Hit.
    apply bind_Done in Hit as (held & _ & Hit).
    apply bind_Done in Hit as (released & _ & Hret).
    injection Hret as <-.
    destruct (_ =? userRangeEnd wi); cbn [world]; by apply pass_kept. }
  apply (kept_trans _ _ _ K1), IH; [exact (kept_self _ _ K1)|done].
Qed.

Lemma runSliceMarch_kept M U fuel lf W usersPerBlk w :
  kept w w -> when_done (runSliceMarch M U fuel lf W usersPerBlk w) (kept w).
Proof.
  intros Hw. unfold when_done.
  destruct (runSliceMarch M U fuel lf W usersPerBlk w) as [w'| |] eqn:Hrun;
    [|done|done].
  unfold runSliceMarch in Hrun.
  destruct ((W =? 0) || (usersPerBlk =? 0)); [discriminate|].
  apply bind_Done in Hrun as (w1 & Hadv & Hrun).
  apply bind_Done in Hrun as (r & Hmarch & Hret). injection Hret as <-.
  assert (K0 : kept w w1).
  { apply (do_all_kept (fun w => w) (advance_edge_iterators M) _
             (fun it w w' => advance_kept M it w w') w w1 Hw Hadv). }
  apply (kept_trans _ _ _ K0).
  refine (do_all_kept fst _ _ _ _ _ _ Hmarch); [|exact (kept_self _ _ K0)].
  intros it s s' Hs Hrun. unfold sgd_march in Hrun.
  apply bind_Done in Hrun as (r' & Hloop & Hret). injection Hret as <-.
  cbn [fst]. exact (sgd_march_loop_kept M U _ it fuel (mkMarchState _ _ _ _ _) _ Hs Hloop).
Qed.

Lemma runBlockSlices_block_ends M U lf W usersPerBlk moviesPerBlk w :
  W ≠ 0 ->
  exists w', runBlockSlices M U (sgd_block U) lf W usersPerBlk moviesPerBlk w
             = Done w'.
Proof.
  intros HW. unfold runBlockSlices, block_start.
  apply Z.eqb_neq in HW. rewrite HW.
  set (items := block_work_items M U W usersPerBlk moviesPerBlk).
  destruct (do_all_ends (advance_edge_iterators M) items
              (fun it s => ex_intro _ _ eq_refl) w) as [w0 H0].
  rewrite H0. cbn -[do_all indices].
  destruct (do_all_ends
              (block_round (sgd_block U) lf W (userRangeStart <$> items)
                 (userRangeEnd <$> items))
              (indices MAX_MOVIE_UPDATES)) with (s := (w0, items))
    as [s1 H1].
  - intros update s. unfold block_round. apply do_all_ends.
    intros j t. unfold block_substep.
    destruct (do_all_ends (sgd_block U (step_size lf update)) t.2
                (fun it s => ex_intro _ _ eq_refl) t.1) as [w2 ->].
    cbn. by eexists.
  - rewrite H1. cbn. by eexists.
Qed.

(** A run of a blocked scheduler or of the marching slices, if it ends,
    leaves the edges as they were, every cursor within its adjacency and,
    in the counter of every node, the number of kernel calls with that
    node as the movie (modulo 2^32), provided the state it starts from is
    so; and the run of [block] with at least one thread ends. *)
Theorem blocked_runs_keep_cursors_and_counts
    M U lf W usersPerBlk moviesPerBlk fuel w :
  cursors_ok w -> degrees_fit w -> tally w ->
  when_done (runBlockSlices M U (sgd_block U) lf W usersPerBlk moviesPerBlk w)
            (kept w) /\
  when_done (runBlockSlices M U (sgd_block_users M U fuel) lf W usersPerBlk
               moviesPerBlk w) (kept w) /\
  when_done (runBlockSlices M U (sgd_block_users_movies M U fuel) lf W
               usersPerBlk moviesPerBlk w) (kept w) /\
  when_done (runSliceMarch M U fuel lf W usersPerBlk w) (kept w) /\
  (W ≠ 0 ->
   exists w', runBlockSlices M U (sgd_block U) lf W usersPerBlk moviesPerBlk w
              = Done w').
Proof.
  intros Hok Hfit Ht. pose proof (kept_refl w Hok Hfit Ht) as Hw.
  split; [|split; [|split; [|split]]].
  - apply runBlockSlices_kept; [|done].
    intros ss wi w1 w2. apply sgd_block_kept.
  - apply runBlockSlices_kept; [|done].
    intros ss wi w1 w2. apply sgd_block_users_loop_kept.
  - apply runBlockSlices_kept; [|done].
    intros ss wi w1 w2. apply sgd_block_users_movies_loop_kept.
  - by apply runSliceMarch_kept.
  - apply runBlockSlices_block_ends.
Qed.
End WholeRuns.

Lemma two_by_four_tally : tally (mkWorld two_by_four []).
Proof.
  intros m _. unfold getData, two_by_four, times_movie.
  cbn [graph node_data applied].
  do 6 (destruct m as [|m]; [vm_compute; exact eq_refl|]).
  destruct m; vm_compute; exact eq_refl.
Qed.

Lemma blocked_runs_keep_cursors_and_counts_witness :
  when_done (runBlockSlices 2 4 (sgd_block_users_movies 2 4 100) IntelLearnFN
               2 2048 512 (mkWorld two_by_four []))
            (kept (mkWorld two_by_four [])) /\
  observe (fun _ => tt)
    (runBlockSlices 2 4 (sgd_block_users_movies 2 4 100) IntelLearnFN
       2 2048 512 (mkWorld two_by_four [])) = Some tt.
Proof.
  split.
  - exact (proj1 (proj2 (proj2
      (blocked_runs_keep_cursors_and_counts 2 4 IntelLearnFN 2 2048 512 100
         (mkWorld two_by_four []) (proj1 two_by_four_ok)
         (proj2 two_by_four_ok) two_by_four_tally)))).
  - vm_compute. exact eq_refl.
Defined.

(** ** The scheduler by movie *)

Section NodeMovie.
Local Open Scope nat_scope.






End NodeMovie.

(** ** Marching slices *)

Section March.
Local Open Scope Z_scope.

Variables M U : Z.
Variable ss : R.
Variable wi : ThreadWorkItem.

Lemma replicate_lookup_false n i :
  (i < n)%nat -> replicate n false !! i = Some false.
Proof. intros. by apply lookup_replicate_2. Qed.

Lemma replicate_insert_false n i :
  <[i := false]> (<[i := true]> (replicate n false)) = replicate n false.
Proof.
  rewrite list_insert_insert_eq. apply list_insert_id'.
  intros Hi. rewrite length_replicate in Hi. by apply lookup_replicate_2.
Qed.

(** One iteration of a marching worker. *)
Lemma sgd_march_iteration_spec s :
  tiled U wi -> marching U wi s -> 0 <= sliceUpdates s ->
  sliceUpdates s + 1 < 2 ^ 32 ->
  exists s', sgd_march_iteration M U ss wi s = Done s' /\
    marching U wi s' /\ sliceUpdates s' = sliceUpdates s + 1.
Proof.
  intros (Hups & Hend & HU & Hfit & _) (Hl & Hid & Hpos) Hu0 Hu1.
  assert (Hprod : 0 <= currentSliceId s * usersPerBlockSlice wi) by nia.
  assert (HS : 0 <= numSlices wi) by nia.
  assert (Hin : currentSliceId s < numSlices wi) by nia.
  unfold sgd_march_iteration, acquire, unlock.
  rewrite Hl, replicate_lookup_false by lia.
  cbn [mbind Outcome_bind].
  rewrite list_lookup_insert_eq by (rewrite length_replicate; lia).
  cbn [mbind Outcome_bind mret Outcome_ret].
  rewrite replicate_insert_false.
  eexists. split; [exact eq_refl|].
  unfold next_slice_end. rewrite Hend.
  rewrite (u32_small (currentBlockSliceEnd s + usersPerBlockSlice wi)) by lia.
  rewrite (u32_small (sliceUpdates s + 1)) by lia.
  destruct (U <? currentBlockSliceEnd s + usersPerBlockSlice wi) eqn:E.
  - rewrite Z.eqb_refl. unfold marching.
    cbn [sliceUpdates locks currentSliceId currentBlockSliceEnd].
    split; [|done]. split; [done|]. lia.
  - apply Z.ltb_ge in E.
    unfold marching.
    destruct (currentBlockSliceEnd s + usersPerBlockSlice wi =? U) eqn:E2;
      cbn [sliceUpdates locks currentSliceId currentBlockSliceEnd].
    + split; [|done]. split; [done|]. lia.
    + apply Z.eqb_neq in E2. split; [|done]. split; [done|].
      rewrite (u32_small (currentSliceId s + 1)) by nia. nia.
Qed.

(** The loop of a marching worker makes as many iterations as it lacks
    slice updates: with that much fuel it ends, with less it does not. *)
Lemma sgd_march_loop_spec fuel : forall s,
  tiled U wi -> marching U wi s ->
  0 <= sliceUpdates s <= MAX_MOVIE_UPDATES * numSlices wi ->
  let left := Z.to_nat (MAX_MOVIE_UPDATES * numSlices wi - sliceUpdates s) in
  ((left <= fuel)%nat ->
   exists s', sgd_march_loop M U fuel ss wi s = Done s' /\
     marching U wi s' /\
     sliceUpdates s' = MAX_MOVIE_UPDATES * numSlices wi) /\
  ((fuel < left)%nat -> sgd_march_loop M U fuel ss wi s = OutOfFuel).
Proof.
  induction fuel as [|fuel IH]; intros s Ht Hm Hu; cbv zeta;
    cbn [sgd_march_loop];
    pose proof Ht as (_ & _ & _ & _ & Hfit);
    rewrite (u32_small (MAX_MOVIE_UPDATES * numSlices wi)) by lia;
    destruct (sliceUpdates s <? MAX_MOVIE_UPDATES * numSlices wi) eqn:E.
  - apply Z.ltb_lt in E. split; [lia|done].
  - apply Z.ltb_ge in E. split; [|lia]. intros _. exists s.
    split; [done|]. split; [done|lia].
  - apply Z.ltb_lt in E.
    destruct (sgd_march_iteration_spec s Ht Hm) as (s1 & -> & Hm1 & Hu1);
      [lia|lia|].
    cbn [mbind Outcome_bind].
    destruct (IH s1 Ht Hm1) as [I1 I2]; [lia|].
    cbv zeta in I1, I2. rewrite Hu1 in I1, I2.
    split; intros Hf; [apply I1|apply I2]; lia.
  - apply Z.ltb_ge in E. split; [|lia]. intros _. exists s.
    split; [done|]. split; [done|lia].
Qed.
End March.

Section MarchRun.
Local Open Scope Z_scope.

Lemma do_all_ends_with {S I : Type} (Inv : S -> Prop) (P : I -> Prop)
    (fn : I -> S -> Outcome S) items :
  (forall it s, P it -> Inv s -> exists s', fn it s = Done s' /\ Inv s') ->
  Forall P items ->
  forall s, Inv s -> exists s', do_all fn items s = Done s' /\ Inv s'.
Proof.
  intros Hfn HP. induction HP as [|it items Hit _ IH]; intros s Hs;
    cbn [do_all]; [by exists s|].
  destruct (Hfn it s Hit Hs) as (s1 & -> & Hs1). cbn [mbind Outcome_bind].
  by apply IH.
Qed.

Lemma indices_bounds n : Forall (fun i => 0 <= i < n) (indices n).
Proof.
  unfold indices. apply Forall_fmap, Forall_forall.
  intros k Hk%elem_of_seq. cbn. lia.
Qed.

Lemma march_work_item_starts M U W usersPerBlk i :
  0 < W -> 0 < usersPerBlk -> 0 < U < 2 ^ 32 ->
  U = U / usersPerBlk * usersPerBlk -> 0 <= i < W ->
  let item := march_work_item M U W usersPerBlk (U / usersPerBlk) i in
  0 <= sliceStart item /\
  sliceStart item * usersPerBlk <= userRangeStart item < U.
Proof.
  intros HW Hups HU Hdiv Hi. cbv zeta.
  unfold march_work_item. cbn [sliceStart userRangeStart].
  set (S := U / usersPerBlk) in *.
  assert (HS : 0 <= S) by (apply Z.div_pos; lia).
  assert (HSW : 0 <= S / W) by (apply Z.div_pos; lia).
  assert (HUW : 0 <= U / W) by (apply Z.div_pos; lia).
  assert (HSW' : W * (S / W) <= S) by (apply Z.mul_div_le; lia).
  assert (HUW' : W * (U / W) <= U) by (apply Z.mul_div_le; lia).
  assert (HSU : S <= U) by nia.
  assert (Hle : S / W * usersPerBlk <= U / W).
  { apply Z.div_le_lower_bound; [lia|]. nia. }
  rewrite (u32_small (S / W * i)) by nia.
  rewrite (u32_small (U / W * i)) by nia.
  split; [nia|]. split; [nia|].
  destruct (decide (U / W = 0)) as [->|Hnz]; [lia|]. nia.
Qed.

(** When the slice width divides the number of users and the sums fit in
    32 bits, the run of the marching slices ends if the fuel allows
    [MAX_MOVIE_UPDATES * S] iterations to a worker, where [S] is the
    number of slices, and with less fuel it does not: the first worker is
    then still in its loop.  No lock is found held and no lock index
    leaves the array. *)
Theorem marching_slices_end M U lf W usersPerBlk fuel w :
  0 < W -> 0 < usersPerBlk -> 0 < U ->
  U = U / usersPerBlk * usersPerBlk ->
  U + usersPerBlk < 2 ^ 32 ->
  MAX_MOVIE_UPDATES * (U / usersPerBlk) < 2 ^ 32 ->
  let iterations := Z.to_nat (MAX_MOVIE_UPDATES * (U / usersPerBlk)) in
  ((iterations <= fuel)%nat ->
   exists w', runSliceMarch M U fuel lf W usersPerBlk w = Done w') /\
  ((fuel < iterations)%nat ->
   runSliceMarch M U fuel lf W usersPerBlk w = OutOfFuel).
Proof.
  intros HW Hups HU Hdiv Hfit Hfit5. cbv zeta.
  unfold runSliceMarch.
  remember (U / usersPerBlk) as S eqn:HSdef.
  assert (HS : 0 < S) by nia.
  assert (H5 : MAX_MOVIE_UPDATES = 5) by exact eq_refl.
  assert (Hz : (W =? 0) || (usersPerBlk =? 0) = false).
  { apply orb_false_iff. split; apply Z.eqb_neq; lia. }
  rewrite Hz.
  set (items := march_work_item M U W usersPerBlk S <$> indices W).
  destruct (do_all_ends (advance_edge_iterators M) items
              (fun it s => ex_intro _ _ eq_refl) w) as [w1 ->].
  cbn [mbind Outcome_bind].
  assert (Hitem : forall i, 0 <= i < W ->
            let it := march_work_item M U W usersPerBlk S i in
            tiled U it /\
            forall (s : World * list bool),
              s.2 = replicate (Z.to_nat S) false ->
              marching U it
                (mkMarchState s.1 s.2 (userRangeStart it) (sliceStart it) 0)).
  { intros i Hi. cbv zeta. split; [unfold tiled; cbn; unfold MAX_MOVIE_UPDATES in *; lia|].
    intros s Hl.
    destruct (march_work_item_starts M U W usersPerBlk i) as [H1 H2];
      try lia.
    cbv zeta in H1, H2. rewrite <- HSdef in H1, H2.
    unfold marching. cbn [locks currentSliceId currentBlockSliceEnd].
    split; [exact Hl|]. split; [exact H1|exact H2]. }
  split.
  - intros Hf.
    destruct (do_all_ends_with
                (fun s : World * list bool => s.2 = replicate (Z.to_nat S) false)
                (fun it => exists i, 0 <= i < W /\
                   it = march_work_item M U W usersPerBlk S i)
                (sgd_march M U fuel (step_size lf 1)) items)
      with (s := (w1, replicate (Z.to_nat S) false)) as (r & -> & _).
    + intros it s (i & Hi & ->) Hl. destruct (Hitem i Hi) as [Ht Hm].
      unfold sgd_march.
      destruct (sgd_march_loop_spec M U (step_size lf 1) _ fuel _ Ht (Hm s Hl))
        as [Hdone _]; [cbn; unfold MAX_MOVIE_UPDATES in *; lia|].
      destruct Hdone as (s' & -> & (Hl' & _) & _); [cbn; unfold MAX_MOVIE_UPDATES in *; lia|].
      cbn. eexists. split; [exact eq_refl|]. exact Hl'.
    + unfold items. apply Forall_fmap.
      eapply Forall_impl; [apply indices_bounds|].
      intros i Hi. cbn. by exists i.
    + exact eq_refl.
    + cbn. by eexists.
  - intros Hf.
    assert (Hitems : exists rest,
              items = march_work_item M U W usersPerBlk S 0 :: rest).
    { unfold items, indices. destruct (Z.to_nat W) as [|n] eqn:E; [lia|].
      cbn. by eexists. }
    destruct Hitems as [rest ->]. cbn [do_all].
    destruct (Hitem 0) as [Ht Hm]; [lia|].
    assert (Hout : sgd_march M U fuel (step_size lf 1)
                     (march_work_item M U W usersPerBlk S 0)
                     (w1, replicate (Z.to_nat S) false) = OutOfFuel).
    { unfold sgd_march.
      destruct (sgd_march_loop_spec M U (step_size lf 1) _ fuel _ Ht
                  (Hm (w1, replicate (Z.to_nat S) false) eq_refl))
        as [_ Hout]; [cbn; unfold MAX_MOVIE_UPDATES in *; lia|].
      rewrite Hout by (cbn; unfold MAX_MOVIE_UPDATES in *; lia).
      exact eq_refl. }
    rewrite Hout. exact eq_refl.
Qed.
End MarchRun.

Lemma marching_slices_end_witness :
  (exists w',
     runSliceMarch 1 3 15 IntelLearnFN 1 1 (mkWorld one_by_three []) = Done w') /\
  runSliceMarch 1 3 14 IntelLearnFN 1 1 (mkWorld one_by_three []) = OutOfFuel.
Proof.
  split.
  - apply (marching_slices_end 1 3 IntelLearnFN 1 1 15
             (mkWorld one_by_three [])); vm_compute; (exact eq_refl || lia).
  - apply (marching_slices_end 1 3 IntelLearnFN 1 1 14
             (mkWorld one_by_three [])); vm_compute; (exact eq_refl || lia).
Defined.

(** ** The scheduler by edge *)

Section EdgeMovie.
Local Open Scope Z_scope.




End EdgeMovie.

Section EdgeMovieRounds.
Local Open Scope Z_scope.

Variable random_shuffle : Z -> list nat -> list nat.
Hypothesis shuffles : forall i l, random_shuffle i l ≡ₚ l.


End EdgeMovieRounds.


(** ** The set-up and the rotation of the blocked grid *)

Section GridLayout.
Local Open Scope Z_scope.

Variables M U W usersPerBlk moviesPerBlk : Z.
Hypothesis W_fits : 0 < W < 2 ^ 32.
Hypothesis M_fits : 0 <= M < 2 ^ 32.
Hypothesis U_fits : 0 <= U < 2 ^ 32.

Lemma block_work_item_ranges i :
  0 <= i < W ->
  let wi := block_work_item M U W usersPerBlk moviesPerBlk i in
  movieRangeStart wi = M / W * i /\
  movieRangeEnd wi = (if decide (i = W - 1) then M else M / W * (i + 1)) /\
  userRangeStart wi = U / W * i /\
  userRangeEnd wi = (if decide (i = W - 1) then U else U / W * (i + 1)).
Proof.
  intros Hi. cbv zeta. unfold block_work_item.
  cbn [movieRangeStart movieRangeEnd userRangeStart userRangeEnd].
  assert (0 <= M / W) by (apply Z.div_pos; lia).
  assert (0 <= U / W) by (apply Z.div_pos; lia).
  assert (W * (M / W) <= M) by (apply Z.mul_div_le; lia).
  assert (W * (U / W) <= U) by (apply Z.mul_div_le; lia).
  rewrite (u32_small (W - 1)) by lia.
  rewrite (u32_small (M / W * i)) by nia.
  rewrite (u32_small (U / W * i)) by nia.
  split; [done|]. split; [|split; [done|]].
  - destruct (decide (i = W - 1)) as [->|Hn].
    + by rewrite Z.eqb_refl.
    + rewrite (proj2 (Z.eqb_neq _ _) Hn). rewrite u32_small by nia. ring.
  - destruct (decide (i = W - 1)) as [->|Hn].
    + by rewrite Z.eqb_refl.
    + rewrite (proj2 (Z.eqb_neq _ _) Hn).
      rewrite (u32_small (i + 1)) by lia. rewrite u32_small by nia. ring.
Qed.

Lemma block_work_items_lookup k :
  (k < Z.to_nat W)%nat ->
  block_work_items M U W usersPerBlk moviesPerBlk !! k
  = Some (block_work_item M U W usersPerBlk moviesPerBlk (Z.of_nat k)).
Proof.
  intros Hk. unfold block_work_items, indices.
  rewrite !list_lookup_fmap, lookup_seq_lt by done. done.
Qed.

Lemma block_work_items_length :
  length (block_work_items M U W usersPerBlk moviesPerBlk) = Z.to_nat W.
Proof.
  unfold block_work_items, indices. by rewrite !length_fmap, length_seq.
Qed.

Lemma rows_apart i i' :
  0 <= i < W -> 0 <= i' < W -> i < i' ->
  (if decide (i = W - 1) then M else M / W * (i + 1)) <= M / W * i'.
Proof.
  intros Hi Hi' Hlt. rewrite decide_False by lia.
  assert (0 <= M / W) by (apply Z.div_pos; lia). nia.
Qed.

Lemma columns_apart c c' :
  0 <= c < W -> 0 <= c' < W -> c < c' ->
  (if decide (c = W - 1) then U else U / W * (c + 1)) <= U / W * c'.
Proof.
  intros Hc Hc' Hlt. rewrite decide_False by lia.
  assert (0 <= U / W) by (apply Z.div_pos; lia). nia.
Qed.

Lemma shifted_columns_differ d k k' :
  0 <= d -> 0 <= k < W -> 0 <= k' < W -> k ≠ k' ->
  (d + k) mod W ≠ (d + k') mod W.
Proof.
  intros Hd Hk Hk' Hne Heq.
  assert (Hdiv : forall a b, 0 <= a < W -> 0 <= b < W -> a < b ->
                   (d + a) mod W = (d + b) mod W -> False).
  { intros a b Ha Hb Hab E.
    pose proof (Z.div_mod (d + a) W ltac:(lia)) as Da.
    pose proof (Z.div_mod (d + b) W ltac:(lia)) as Db.
    rewrite E in Da.
    assert (b - a = W * ((d + b) / W - (d + a) / W)) by lia.
    assert (0 < (d + b) / W - (d + a) / W) by nia.
    nia. }
  destruct (Z.lt_total k k') as [Hlt|[->|Hgt]]; [|done|].
  - exact (Hdiv k k' Hk Hk' Hlt Heq).
  - exact (Hdiv k' k Hk' Hk Hgt (eq_sym Heq)).
Qed.

(** The work items the set-up loop of [runBlockSlices] builds cut the
    movies and the users into consecutive ranges: work item 0 starts at
    0, every work item but the last is [M / W] movies and [U / W] users
    wide and ends where the next one starts, and the last one ends at [M]
    and at [U], so that it takes the remainders of the divisions. *)
Theorem block_work_items_tile i :
  0 <= i < W ->
  let wi := block_work_item M U W usersPerBlk moviesPerBlk i in
  let next := block_work_item M U W usersPerBlk moviesPerBlk (i + 1) in
  movieRangeStart wi <= movieRangeEnd wi /\
  userRangeStart wi <= userRangeEnd wi /\
  (i = 0 -> movieRangeStart wi = 0 /\ userRangeStart wi = 0) /\
  (i + 1 < W ->
     movieRangeEnd wi = movieRangeStart next /\
     userRangeEnd wi = userRangeStart next /\
     movieRangeEnd wi - movieRangeStart wi = M / W /\
     userRangeEnd wi - userRangeStart wi = U / W) /\
  (i + 1 = W ->
     movieRangeEnd wi = M /\ userRangeEnd wi = U /\
     movieRangeEnd wi - movieRangeStart wi = M / W + M mod W /\
     userRangeEnd wi - userRangeStart wi = U / W + U mod W).
Proof.
  intros Hi. cbv zeta.
  destruct (block_work_item_ranges i Hi) as (-> & -> & -> & ->).
  assert (0 <= M / W) by (apply Z.div_pos; lia).
  assert (0 <= U / W) by (apply Z.div_pos; lia).
  assert (W * (M / W) <= M) by (apply Z.mul_div_le; lia).
  assert (W * (U / W) <= U) by (apply Z.mul_div_le; lia).
  pose proof (Z.div_mod M W ltac:(lia)) as DM.
  pose proof (Z.div_mod U W ltac:(lia)) as DU.
  split; [destruct (decide (i = W - 1)); nia|].
  split; [destruct (decide (i = W - 1)); nia|].
  split; [intros ->; lia|]. split.
  - intros Hn.
    destruct (block_work_item_ranges (i + 1) ltac:(lia)) as (-> & _ & -> & _).
    rewrite !decide_False by lia. lia.
  - intros Hl. rewrite !decide_True by lia. nia.
Qed.

(** After any sequence of sub-steps of [runBlockSlices] (and before the
    first) no two work items share a movie or a user: the movie ranges of
    two workers never meet, and the move to the right gives worker [k] the
    user column [(j + 1 + k) mod W], which is a different column for every
    worker.  The sum [j + 1 + k] must not wrap, hence [W <= 2^31]. *)
Theorem grid_workers_are_apart js k k' a b :
  W <= 2 ^ 31 -> (forall j, j ∈ js -> 0 <= j < W) -> k ≠ k' ->
  let items0 := block_work_items M U W usersPerBlk moviesPerBlk in
  let starts := userRangeStart <$> items0 in
  let ends := userRangeEnd <$> items0 in
  let items :=
    fold_left (fun its j => move_right W j starts ends its) js items0 in
  items !! k = Some a -> items !! k' = Some b -> apart a b.
Proof.
  intros HW Hjs Hne. cbv zeta.
  set (items0 := block_work_items M U W usersPerBlk moviesPerBlk).
  set (item := block_work_item M U W usersPerBlk moviesPerBlk).
  set (starts := userRangeStart <$> items0).
  set (ends := userRangeEnd <$> items0).
  set (shifted d (its : list ThreadWorkItem) :=
         length its = Z.to_nat W /\
         forall n x, its !! n = Some x ->
           movieRangeStart x = movieRangeStart (item (Z.of_nat n)) /\
           movieRangeEnd x = movieRangeEnd (item (Z.of_nat n)) /\
           userRangeStart x
             = userRangeStart (item ((d + Z.of_nat n) mod W)) /\
           userRangeEnd x = userRangeEnd (item ((d + Z.of_nat n) mod W))).
  assert (Hinv : forall js its d, 0 <= d -> shifted d its ->
            (forall j, j ∈ js -> 0 <= j < W) ->
            exists d', 0 <= d' /\
              shifted d' (fold_left (fun its j => move_right W j starts ends its)
                                    js its)).
  { clear Hjs js. induction js as [|j js IH]; intros its d Hd Hsh Hjs;
      cbn [fold_left]; [by exists d|].
    assert (Hj : 0 <= j < W) by (apply Hjs, elem_of_cons; by left).
    apply (IH _ (j + 1)); [lia| |intros j' Hj'; apply Hjs, elem_of_cons; by right].
    destruct Hsh as [Hlen Hsh]. split.
    { unfold move_right. by rewrite length_imap. }
    intros n x Hx. unfold move_right in Hx. rewrite list_lookup_imap in Hx.
    destruct (its !! n) as [y|] eqn:Hy; [|done].
    assert (Hn : (n < Z.to_nat W)%nat)
      by (rewrite <- Hlen; by apply lookup_lt_Some in Hy).
    cbn in Hx. injection Hx as <-.
    cbn [movieRangeStart movieRangeEnd userRangeStart userRangeEnd].
    destruct (Hsh n y Hy) as (-> & -> & _ & _).
    split; [done|]. split; [done|].
    rewrite (u32_small (j + 1)) by lia.
    rewrite (u32_small (j + 1 + Z.of_nat n)) by lia.
    assert (Hc : 0 <= (j + 1 + Z.of_nat n) mod W < W)
      by (apply Z.mod_pos_bound; lia).
    set (c := (j + 1 + Z.of_nat n) mod W) in *.
    unfold starts, ends, items0.
    pose proof (block_work_items_lookup (Z.to_nat c) ltac:(lia)) as Hitem.
    rewrite Z2Nat.id in Hitem by lia.
    rewrite (list_lookup_total_correct (userRangeStart <$> _) (Z.to_nat c)
               (userRangeStart (item c)))
      by (rewrite list_lookup_fmap, Hitem; done).
    rewrite (list_lookup_total_correct (userRangeEnd <$> _) (Z.to_nat c)
               (userRangeEnd (item c)))
      by (rewrite list_lookup_fmap, Hitem; done).
    done. }
  assert (H0 : shifted 0 items0).
  { split; [apply block_work_items_length|]. intros n x Hx.
    assert (Hn : (n < Z.to_nat W)%nat).
    { rewrite <- block_work_items_length. by apply lookup_lt_Some in Hx. }
    unfold items0 in Hx. rewrite block_work_items_lookup in Hx by done.
    injection Hx as <-. rewrite Z.add_0_l, Z.mod_small by lia. done. }
  destruct (Hinv js items0 0 ltac:(lia) H0 Hjs) as (d & Hd & Hlen & Hsh).
  intros Ha Hb.
  assert (Hk : (k < Z.to_nat W)%nat)
    by (rewrite <- Hlen; by apply lookup_lt_Some in Ha).
  assert (Hk' : (k' < Z.to_nat W)%nat)
    by (rewrite <- Hlen; by apply lookup_lt_Some in Hb).
  destruct (Hsh k a Ha) as (A1 & A2 & A3 & A4).
  destruct (Hsh k' b Hb) as (B1 & B2 & B3 & B4).
  assert (Hc : 0 <= (d + Z.of_nat k) mod W < W)
    by (apply Z.mod_pos_bound; lia).
  assert (Hc' : 0 <= (d + Z.of_nat k') mod W < W)
    by (apply Z.mod_pos_bound; lia).
  assert (Hcol : (d + Z.of_nat k) mod W ≠ (d + Z.of_nat k') mod W)
    by (apply shifted_columns_differ; lia).
  unfold apart. rewrite A1, A2, A3, A4, B1, B2, B3, B4. unfold item.
  destruct (block_work_item_ranges (Z.of_nat k) ltac:(lia))
    as (-> & -> & _ & _).
  destruct (block_work_item_ranges (Z.of_nat k') ltac:(lia))
    as (-> & -> & _ & _).
  destruct (block_work_item_ranges _ Hc) as (_ & _ & -> & ->).
  destruct (block_work_item_ranges _ Hc') as (_ & _ & -> & ->).
  split.
  - destruct (Z.lt_total (Z.of_nat k) (Z.of_nat k')) as [?|[?|?]]; [|lia|].
    + left. apply rows_apart; lia.
    + right. apply rows_apart; lia.
  - destruct (Z.lt_total ((d + Z.of_nat k) mod W) ((d + Z.of_nat k') mod W))
      as [?|[?|?]]; [|done|].
    + left. apply columns_apart; lia.
    + right. apply columns_apart; lia.
Qed.

End GridLayout.

Lemma block_work_items_tile_witness :
  let wi := block_work_item 10 7 3 2 2 2 in
  let next := block_work_item 10 7 3 2 2 (2 + 1) in
  (movieRangeStart wi <= movieRangeEnd wi /\
   userRangeStart wi <= userRangeEnd wi /\
   (2 = 0 -> movieRangeStart wi = 0 /\ userRangeStart wi = 0) /\
   (2 + 1 < 3 ->
      movieRangeEnd wi = movieRangeStart next /\
      userRangeEnd wi = userRangeStart next /\
      movieRangeEnd wi - movieRangeStart wi = 10 / 3 /\
      userRangeEnd wi - userRangeStart wi = 7 / 3) /\
   (2 + 1 = 3 ->
      movieRangeEnd wi = 10 /\ userRangeEnd wi = 7 /\
      movieRangeEnd wi - movieRangeStart wi = 10 / 3 + 10 mod 3 /\
      userRangeEnd wi - userRangeStart wi = 7 / 3 + 7 mod 3))%Z.
Proof. apply (block_work_items_tile 10 7 3 2 2); lia. Defined.

Lemma grid_workers_are_apart_witness :
  apart (mkThreadWorkItem 0 3 2 4 2 2 0 0 0)
        (mkThreadWorkItem 3 6 4 7 2 2 0 0 1).
Proof.
  apply (grid_workers_are_apart 10 7 3 2 2 ltac:(lia) ltac:(lia) ltac:(lia)
           [0; 1; 2; 0]%Z 0%nat 1%nat).
  - lia.
  - intros j Hj. repeat (apply elem_of_cons in Hj as [->|Hj]; [lia|]).
    by apply elem_of_nil in Hj.
  - done.
  - vm_compute. exact eq_refl.
  - vm_compute. exact eq_refl.
Defined.

(** ** The error report *)

Section Report.
Local Open Scope R_scope.

Lemma accumulate_spec {A} (step : A -> R -> R) (P : A -> Prop) (l : list A) :
  (forall x acc, x ∈ l -> acc <= step x acc /\ (step x acc = acc <-> P x)) ->
  forall a, a <= fold_left (fun acc x => step x acc) l a /\
    (fold_left (fun acc x => step x acc) l a = a <-> forall x, x ∈ l -> P x).
Proof.
  induction l as [|x l IH]; intros Hstep a; cbn [fold_left].
  - split; [lra|]. split; [|intros _; exact eq_refl].
    intros _ x Hx. by apply elem_of_nil in Hx.
  - destruct (Hstep x a ltac:(apply elem_of_cons; by left)) as [Hle Hiff].
    destruct (IH (fun y acc Hy =>
                    Hstep y acc ltac:(apply elem_of_cons; by right))
                 (step x a)) as [Hle' Hiff'].
    split; [lra|]. split.
    + intros Heq y Hy.
      assert (Hx : step x a = a) by lra.
      apply elem_of_cons in Hy as [->|Hy]; [by apply Hiff|].
      apply Hiff'; [|exact Hy]. lra.
    + intros Hall.
      assert (Hx : step x a = a)
        by (apply Hiff, Hall, elem_of_cons; by left).
      rewrite Hx in *. apply Hiff'. intros y Hy.
      apply Hall, elem_of_cons. by right.
Qed.

Lemma squared_error_zero g n e :
  0 <= squared_error g n e /\
  (squared_error g n e = 0 <->
   calcPrediction (node_data g) n (Z.to_nat (getEdgeDst e))
   = IZR (getEdgeData e)).
Proof.
  unfold squared_error. cbv zeta.
  set (pred := calcPrediction _ _ _). set (rating := IZR (getEdgeData e)).
  clearbody pred rating. split; [exact (Rle_0_sqr (pred - rating))|].
  split; [|intros ->; ring].
  intros H. apply Rmult_integral in H. lra.
Qed.

(** The sum that [verify] prints is never negative, and it is 0 exactly
    when the clamped prediction of every edge of every node equals the
    rating of the edge; with a positive rating count the root mean square
    is never negative either, its square times the count is the sum, and
    it is 0 exactly when the sum is. *)
Theorem verify_reports_the_squared_error NUM_RATINGS g :
  (0 < NUM_RATINGS)%Z ->
  let report := verify NUM_RATINGS g in
  0 <= report.1 /\
  (report.1 = 0 <->
   forall n e, (n < length (node_data g))%nat -> e ∈ out_edges g !!! n ->
     calcPrediction (node_data g) n (Z.to_nat (getEdgeDst e))
     = IZR (getEdgeData e)) /\
  0 <= report.2 /\
  report.2 * report.2 * IZR NUM_RATINGS = report.1 /\
  (report.2 = 0 <-> report.1 = 0).
Proof.
  intros Hpos. cbv zeta. unfold verify. cbn [fst snd].
  assert (Hn : 0 < IZR NUM_RATINGS) by (apply IZR_lt in Hpos; exact Hpos).
  destruct (accumulate_spec
              (fun n rms =>
                 fold_left (fun rms e => rms + squared_error g n e)
                           (out_edges g !!! n) rms)
              (fun n => forall e, e ∈ out_edges g !!! n ->
                 calcPrediction (node_data g) n (Z.to_nat (getEdgeDst e))
                 = IZR (getEdgeData e))
              (seq 0 (length (node_data g)))) with (a := 0) as [Hle Hiff].
  { intros n acc _.
    destruct (accumulate_spec
                (fun e rms => rms + squared_error g n e)
                (fun e => calcPrediction (node_data g) n
                            (Z.to_nat (getEdgeDst e)) = IZR (getEdgeData e))
                (out_edges g !!! n)) with (a := acc) as [Hle Hiff].
    { intros e acc' _. destruct (squared_error_zero g n e) as [H0 Hz].
      split; [lra|]. split; [intros H; apply Hz; lra|].
      intros H. apply Hz in H. lra. }
    split; [exact Hle|exact Hiff]. }
  unfold total_rms.
  set (total := fold_left _ _ 0) in *.
  split; [exact Hle|]. split.
  { split.
    - intros H n e Hn' He. apply (proj1 Hiff H n); [|exact He].
      apply elem_of_seq. lia.
    - intros H. apply Hiff. intros n Hn' e He. apply H; [|exact He].
      apply elem_of_seq in Hn'. lia. }
  assert (Hq : 0 <= total / IZR NUM_RATINGS).
  { unfold Rdiv. apply Rmult_le_pos; [exact Hle|].
    left. by apply Rinv_0_lt_compat. }
  split; [apply sqrt_pos|]. split.
  - rewrite sqrt_sqrt by exact Hq. field. lra.
  - split.
    + intros H. apply sqrt_eq_0 in H; [|exact Hq].
      unfold Rdiv in H. apply Rmult_integral in H as [H|H]; [exact H|].
      exfalso. apply (Rinv_neq_0_compat (IZR NUM_RATINGS)); [lra|exact H].
    + intros ->. unfold Rdiv. rewrite Rmult_0_l. apply sqrt_0.
Qed.

End Report.

Lemma verify_reports_the_squared_error_witness :
  let report := verify 8 two_by_four in
  (0 <= report.1 /\
   (report.1 = 0 <->
    forall n e, (n < length (node_data two_by_four))%nat ->
      e ∈ out_edges two_by_four !!! n ->
      calcPrediction (node_data two_by_four) n (Z.to_nat (getEdgeDst e))
      = IZR (getEdgeData e)) /\
   0 <= report.2 /\
   report.2 * report.2 * IZR 8 = report.1 /\
   (report.2 = 0 <-> report.1 = 0))%R.
Proof. apply (verify_reports_the_squared_error 8 two_by_four). lia. Defined.

(** ** The program with a naive scheduler *)

Section NaiveMain.
Local Open Scope Z_scope.





End NaiveMain.

